(** * wrangler.py: suggested normalized terms for a set of terms with minor errors

    A shallow embedding of [src/wrangler.py].  The three classes
    [CapsWrangler], [TextWrangler] and [Wrangler] derive from
    [BaseWrangler]; each supplies its own [substitutions] and inherits
    [wrangled_terms] and [wrangle].

    Python values are modelled as follows.
    - [str] is [string]; [str.lower] is a parameter [lower] of the
      development, so every result holds for whatever case folding the
      interpreter implements.
    - [dict] is an association list in insertion order with at most one
      entry per key ([Py.get], [Py.set]); [collections.Counter] is such a
      dictionary of integers built by one pass over the input.
    - [set(l)] is iterated in an order the language leaves open; the order
      is the parameter [set_order], constrained only to enumerate exactly
      the members of [l].
    - [fuzzywuzzy.process.extractBests] is embedded from the library's
      documented behaviour: every choice is scored with the default scorer
      on default-processed strings, scores below the cutoff 0 are dropped
      and the [limit] best are returned, best first, ties kept in iteration
      order.  The processor and the scorer themselves are parameters. *)

From Stdlib Require Import List String Ascii ZArith Bool Lia Permutation Sorted.
Import ListNotations.
Local Open Scope Z_scope.

Definition term := string.

(* ===================================================================== *)
(** ** Python containers *)
(* ===================================================================== *)

Module Py.

Section Dict.
Context {V : Type}.

(** A [dict] with [str] keys, in insertion order. *)
Definition dict := list (term * V).

(** [d.get(k)] *)
Fixpoint get (d : dict) (k : term) : option V :=
  match d with
  | [] => None
  | (k', v) :: d' => if String.eqb k' k then Some v else get d' k
  end.

(** [d[k] = v]: an existing key keeps its position, a new key is
    appended. *)
Fixpoint set (d : dict) (k : term) (v : V) : dict :=
  match d with
  | [] => [(k, v)]
  | (k', v') :: d' =>
      if String.eqb k' k then (k', v) :: d' else (k', v') :: set d' k v
  end.

Definition keys (d : dict) : list term := map fst d.
Definition values (d : dict) : list V := map snd d.
Definition items (d : dict) : list (term * V) := d.

(** The loop [for t in ts: if f(t) is not None: d[t] = f(t)], the shape
    of every loop that fills a substitution map. *)
Definition assign_each (f : term -> option V) (d : dict) (ts : list term)
  : dict :=
  fold_left (fun d t => match f t with Some v => set d t v | None => d end)
    ts d.
End Dict.

Arguments dict : clear implicits.

(** [Counter.__getitem__]: a missing key counts 0. *)
Definition count_of (c : dict Z) (k : term) : Z :=
  match get c k with Some n => n | None => 0 end.

(** [Counter(iterable)]: [self[elem] = self.get(elem, 0) + 1] for each
    element in turn. *)
Definition Counter (l : list term) : dict Z :=
  fold_left (fun c elem => set c elem (count_of c elem + 1)) l [].

(** [x in l] for a list of strings. *)
Definition contains (l : list term) (x : term) : bool :=
  existsb (String.eqb x) l.

(** [sorted(l, key=lambda i: i[1], reverse=True)]: a stable sort, best
    score first; entries with equal scores keep their relative order. *)
Fixpoint insert_desc {A : Type} (x : A * Z) (l : list (A * Z)) : list (A * Z) :=
  match l with
  | [] => [x]
  | y :: l' => if snd x <? snd y then y :: insert_desc x l' else x :: l
  end.

Fixpoint sorted_desc {A : Type} (l : list (A * Z)) : list (A * Z) :=
  match l with
  | [] => []
  | x :: l' => insert_desc x (sorted_desc l')
  end.

(** [heapq.nlargest(n, l, key=lambda i: i[1])], which the library documents
    as [sorted(l, key=key, reverse=True)[:n]]. *)
Definition nlargest {A : Type} (n : nat) (l : list (A * Z)) : list (A * Z) :=
  firstn n (sorted_desc l).

End Py.

(* ===================================================================== *)
(** ** The wranglers *)
(* ===================================================================== *)

(** The only error [wrangle] raises: its [assert] fails. *)
Inductive exception := AssertionError (message : string).

Inductive result (A : Type) :=
| Return (a : A)
| Raise (e : exception).
Arguments Return {A} a.
Arguments Raise {A} e.

(** The concrete classes, each with the arguments of its [__init__]. *)
Inductive wrangler :=
| CapsWrangler (terms : list term)
| TextWrangler (terms : list term) (threshold : Z)
| Wrangler (terms : list term).

(** [TextWrangler.__init__(self, terms, threshold=94)] *)
Definition default_threshold : Z := 94.

Section Wranglers.

(** [str.lower] *)
Variable lower : term -> term.

(** Iteration order of [set(l)]. *)
Variable set_order : list term -> list term.

(** [fuzzywuzzy.utils.full_process] and [fuzzywuzzy.fuzz.WRatio] on
    processed strings, the defaults of [extractBests]. *)
Variable default_processor : term -> term.
Variable default_scorer : term -> term -> Z.

(** *** fuzzywuzzy.process *)

Definition extractWithoutOrder (query : term) (choices : list term)
  : list (term * Z) :=
  let processed_query := default_processor query in
  filter (fun cs => 0 <=? snd cs)
    (map (fun choice =>
            (choice, default_scorer processed_query (default_processor choice)))
       choices).

Definition extractBests (query : term) (choices : list term) (limit : nat)
  : list (term * Z) :=
  Py.nlargest limit (extractWithoutOrder query choices).

(** *** BaseWrangler *)

Definition _counter_ (terms : list term) : Py.dict Z := Py.Counter terms.

Definition _unique_terms_ (terms : list term) : list term := set_order terms.

(** *** CapsWrangler *)

Definition _get_preferred_capitalization_ (terms : list term) (t : term)
  : option term :=
  let lower_term := lower t in
  fst (fold_left
         (fun (best : option term * Z) (item : term * Z) =>
            let (alt_term, count) := item in
            if String.eqb lower_term (lower alt_term) && (snd best <? count)
            then (Some alt_term, count)
            else best)
         (Py.items (_counter_ terms))
         (None, 0)).

(** [preferred_cap] is never [None] for a member of the input (lemma
    [preferred_some] below), so the comparison [preferred_cap != term]
    is a comparison of strings. *)
Definition CapsWrangler_substitutions (terms : list term) : Py.dict term :=
  fold_left
    (fun substitutions t =>
       match _get_preferred_capitalization_ terms t with
       | Some preferred_cap =>
           if negb (String.eqb preferred_cap t)
           then Py.set substitutions t preferred_cap
           else substitutions
       | None => substitutions
       end)
    (_unique_terms_ terms)
    [].

(** What one round of that loop assigns to [t], if anything. *)
Definition caps_choice (terms : list term) (t : term) : option term :=
  match _get_preferred_capitalization_ terms t with
  | Some preferred_cap =>
      if negb (String.eqb preferred_cap t) then Some preferred_cap else None
  | None => None
  end.

(** *** The inherited [wrangled_terms], over any substitution map *)

Definition substitute (substitutions : Py.dict term) (t : term) : term :=
  match Py.get substitutions t with
  | Some updated_term => updated_term
  | None => t
  end.

(** [wrangled_terms]: each term in turn is appended, replaced when the map
    has an entry for it. *)
Definition wrangled_with (substitutions : Py.dict term) (terms : list term)
  : list term :=
  fold_left
    (fun wrangled_terms t =>
       match Py.get substitutions t with
       | Some updated_term => wrangled_terms ++ [updated_term]
       | None => wrangled_terms ++ [t]
       end)
    terms
    [].

(** *** TextWrangler *)

Definition TextWrangler_substitutions (terms : list term) (threshold : Z)
  : Py.dict term :=
  fold_left
    (fun substitutions t =>
       let closest_terms := extractBests t (_unique_terms_ terms) 2 in
       if (1 <? List.length closest_terms)%nat then
         let closest_term := last closest_terms (t, 0) in
         if threshold <? snd closest_term then
           if Py.count_of (_counter_ terms) t
              <=? Py.count_of (_counter_ terms) (fst closest_term)
           then Py.set substitutions t (fst closest_term)
           else substitutions
         else substitutions
       else substitutions)
    (_unique_terms_ terms)
    [].

(** What one round of that loop assigns to [t], if anything. *)
Definition text_choice (terms : list term) (threshold : Z) (t : term)
  : option term :=
  let closest_terms := extractBests t (_unique_terms_ terms) 2 in
  if (1 <? List.length closest_terms)%nat then
    let closest_term := last closest_terms (t, 0) in
    if threshold <? snd closest_term then
      if Py.count_of (_counter_ terms) t
         <=? Py.count_of (_counter_ terms) (fst closest_term)
      then Some (fst closest_term)
      else None
    else None
  else None.

(** *** Wrangler *)

(** [substitutions] starts as the capitalization map itself (the same
    object, updated in place).  [caps_wrangler.wrangled_terms] is
    evaluated when [text_wrangler] is constructed, before any update, and
    the text map depends on that list alone.  The first loop assigns only
    to the key it is visiting, so it sees every item with its original
    value. *)
Definition Wrangler_substitutions (terms : list term) : Py.dict term :=
  let caps_substitutions := CapsWrangler_substitutions terms in
  let caps_wrangled_terms := wrangled_with caps_substitutions terms in
  let text_substitutions :=
    TextWrangler_substitutions caps_wrangled_terms default_threshold in
  let substitutions := caps_substitutions in
  let substitutions :=
    fold_left
      (fun substitutions (item : term * term) =>
         let (t, caps_sub) := item in
         match Py.get text_substitutions caps_sub with
         | Some text_sub => Py.set substitutions t text_sub
         | None => substitutions
         end)
      (Py.items caps_substitutions)
      substitutions in
  fold_left
    (fun substitutions (item : term * term) =>
       let (t, text_sub) := item in Py.set substitutions t text_sub)
    (Py.items text_substitutions)
    substitutions.

(** *** Dispatch on the class *)

Definition _terms_ (w : wrangler) : list term :=
  match w with
  | CapsWrangler terms => terms
  | TextWrangler terms _ => terms
  | Wrangler terms => terms
  end.

Definition substitutions (w : wrangler) : Py.dict term :=
  match w with
  | CapsWrangler terms => CapsWrangler_substitutions terms
  | TextWrangler terms threshold => TextWrangler_substitutions terms threshold
  | Wrangler terms => Wrangler_substitutions terms
  end.

Definition wrangled_terms (w : wrangler) : list term :=
  wrangled_with (substitutions w) (_terms_ w).

Definition wrangle (w : wrangler) (t : term) : result term :=
  if Py.contains (_terms_ w) t then
    Return (match Py.get (substitutions w) t with
            | None => t
            | Some sub => sub
            end)
  else
    Raise (AssertionError
             ("Cannot wrangle a term outside the original input terms: " ++ t)%string).

End Wranglers.

(* ===================================================================== *)
(** ** Concrete parameters, used to run the code on examples *)
(* ===================================================================== *)

Module Concrete.

(** [str.lower] on ASCII letters. *)
Definition ascii_lower (c : ascii) : ascii :=
  let n := nat_of_ascii c in
  if ((65 <=? n) && (n <=? 90))%nat then ascii_of_nat (n + 32) else c.

Fixpoint lower (s : term) : term :=
  match s with
  | EmptyString => EmptyString
  | String c s' => String (ascii_lower c) (lower s')
  end.

(** One admissible iteration order of [set(l)]: members in order of first
    appearance. *)
Fixpoint first_seen_from (seen l : list term) : list term :=
  match l with
  | [] => []
  | x :: l' =>
      if Py.contains seen x then first_seen_from seen l'
      else x :: first_seen_from (x :: seen) l'
  end.

Definition first_seen (l : list term) : list term := first_seen_from [] l.

(** Another admissible order: the reverse of the former. *)
Definition last_seen_first (l : list term) : list term := rev (first_seen l).

(** [fuzzywuzzy.utils.full_process] with [force_ascii=True], on ASCII
    input: characters outside ASCII are removed, every character that is
    not a letter, a digit or an underscore becomes a space, letters are
    lowered and the result is stripped of leading and trailing spaces. *)
Definition is_word (c : ascii) : bool :=
  let n := nat_of_ascii c in
  (((48 <=? n) && (n <=? 57)) || ((65 <=? n) && (n <=? 90))
   || ((97 <=? n) && (n <=? 122)) || (n =? 95))%nat.

Fixpoint asciidammit (s : term) : term :=
  match s with
  | EmptyString => EmptyString
  | String c s' =>
      if (nat_of_ascii c <? 128)%nat then String c (asciidammit s')
      else asciidammit s'
  end.

Fixpoint replace_non_word (s : term) : term :=
  match s with
  | EmptyString => EmptyString
  | String c s' =>
      String (if is_word c then c else " "%char) (replace_non_word s')
  end.

Fixpoint lstrip (s : term) : term :=
  match s with
  | String " " s' => lstrip s'
  | _ => s
  end.

Fixpoint rstrip (s : term) : term :=
  match s with
  | EmptyString => EmptyString
  | String c s' =>
      match c, rstrip s' with
      | " "%char, EmptyString => EmptyString
      | _, r => String c r
      end
  end.

Definition full_process (s : term) : term :=
  lstrip (rstrip (lower (replace_non_word (asciidammit s)))).

(** A scorer in [0, 100] standing in for [WRatio]: like it, 0 when a
    processed string is empty and 100 for equal strings; otherwise twice
    the length of the common prefix over the total length, as a
    percentage. *)
Fixpoint common_prefix (a b : term) : nat :=
  match a, b with
  | String x a', String y b' =>
      if Ascii.eqb x y then S (common_prefix a' b') else O
  | _, _ => O
  end.

Definition ratio (a b : term) : Z :=
  if ((String.length a =? 0) || (String.length b =? 0))%nat then 0
  else if String.eqb a b then 100
  else (200 * Z.of_nat (common_prefix a b))
       / Z.of_nat (String.length a + String.length b).

End Concrete.

(* ===================================================================== *)
(** ** Vocabulary of the specification *)
(* ===================================================================== *)

(** Frequency Count: the number of occurrences of [t] in the sequence. *)
Definition frequency (terms : list term) (t : term) : Z :=
  Z.of_nat (count_occ string_dec terms t).

(** Position of the first occurrence of [t] in [l] ([length l] if none). *)
Fixpoint first_index (t : term) (l : list term) : nat :=
  match l with
  | [] => O
  | x :: l' => if String.eqb x t then O else S (first_index t l')
  end.

(** [u] is the preferred member of the case-insensitive group of [t]: a
    member of the group with the highest frequency and, among the members
    with that frequency, the one met first. *)
Definition preferred_member (lower : term -> term) (terms : list term)
  (t u : term) : Prop :=
  In u terms /\ lower u = lower t /\
  (forall v, In v terms -> lower v = lower t ->
             frequency terms v <= frequency terms u) /\
  (forall v, In v terms -> lower v = lower t ->
             frequency terms v = frequency terms u ->
             (first_index u terms <= first_index v terms)%nat).

(** [set_order] is an iteration order of sets: it enumerates the members of
    its argument, each once. *)
Definition admissible_order (set_order : list term -> list term) : Prop :=
  forall l, NoDup (set_order l) /\ forall x, In x (set_order l) <-> In x l.

(** [x] may stand before [y] in a ranking by descending score. *)
Definition ranks_before {A : Type} (x y : A * Z) : Prop := snd y <= snd x.

(** [m] maps no key to itself. *)
Definition no_self_mapping (m : Py.dict term) : Prop :=
  forall t u, Py.get m t = Some u -> u <> t.

(** No value of [m] is a key of [k]. *)
Definition no_value_is_key_of (m k : Py.dict term) : Prop :=
  forall t u, Py.get m t = Some u -> Py.get k u = None.

(* ===================================================================== *)
(** ** Dictionaries and counters *)
(* ===================================================================== *)

Section DictFacts.
Context {V : Type}.
Implicit Types (d : Py.dict V) (k : term) (v : V).

Lemma get_set_same d k v : Py.get (Py.set d k v) k = Some v.
Proof.
  induction d as [|[k' v'] d IH]; simpl.
  - now rewrite String.eqb_refl.
  - destruct (String.eqb k' k) eqn:E; simpl; rewrite E; auto.
Qed.

Lemma get_set_other d k v k' :
  k <> k' -> Py.get (Py.set d k v) k' = Py.get d k'.
Proof.
  intros Hne. induction d as [|[k0 v0] d IH]; simpl.
  - destruct (String.eqb_spec k k'); congruence.
  - destruct (String.eqb_spec k0 k) as [->|Hk]; simpl.
    + destruct (String.eqb_spec k k'); congruence.
    + now rewrite IH.
Qed.

Lemma get_Some_In d k v : Py.get d k = Some v -> In (k, v) d.
Proof.
  induction d as [|[k' v'] d IH]; simpl; [discriminate|].
  destruct (String.eqb_spec k' k) as [->|Hk]; intros H.
  - left. congruence.
  - right. auto.
Qed.

Lemma get_None_notin d k : Py.get d k = None <-> ~ In k (Py.keys d).
Proof.
  induction d as [|[k' v'] d IH]; simpl; [tauto|].
  destruct (String.eqb_spec k' k) as [->|Hk].
  - split; [discriminate|tauto].
  - rewrite IH. tauto.
Qed.

Lemma In_get d k v :
  NoDup (Py.keys d) -> In (k, v) d -> Py.get d k = Some v.
Proof.
  induction d as [|[k' v'] d IH]; simpl; [tauto|].
  intros Hnd [Heq|Hin].
  - inversion Heq; subst. now rewrite String.eqb_refl.
  - inversion Hnd as [|? ? Hni Hnd']; subst.
    destruct (String.eqb_spec k' k) as [->|Hk]; auto.
    exfalso. apply Hni. change k with (fst (k, v)). now apply in_map.
Qed.

Lemma keys_set d k v :
  Py.keys (Py.set d k v) =
  match Py.get d k with Some _ => Py.keys d | None => Py.keys d ++ [k] end.
Proof.
  induction d as [|[k' v'] d IH]; simpl; auto.
  destruct (String.eqb_spec k' k) as [->|Hk]; simpl; auto.
  rewrite IH. now destruct (Py.get d k).
Qed.

Lemma NoDup_keys_set d k v :
  NoDup (Py.keys d) -> NoDup (Py.keys (Py.set d k v)).
Proof.
  intros Hnd. rewrite keys_set. destruct (Py.get d k) eqn:E; auto.
  apply get_None_notin in E.
  apply NoDup_rev in Hnd. rewrite <- (rev_involutive (_ ++ _)).
  apply NoDup_rev. rewrite rev_app_distr. simpl. constructor; auto.
  now rewrite <- in_rev.
Qed.

Lemma get_assign_each_notin f ts : forall d k,
  ~ In k ts -> Py.get (Py.assign_each f d ts) k = Py.get d k.
Proof.
  induction ts as [|t ts IH]; simpl; intros d k Hni; auto.
  unfold Py.assign_each in *. simpl. rewrite IH by tauto.
  destruct (f t); auto. apply get_set_other. tauto.
Qed.

Lemma get_assign_each_in f ts : forall d k,
  In k ts ->
  Py.get (Py.assign_each f d ts) k =
  match f k with Some v => Some v | None => Py.get d k end.
Proof.
  induction ts as [|t ts IH]; simpl; intros d k Hin; [tauto|].
  unfold Py.assign_each in *. simpl.
  destruct (in_dec string_dec k ts) as [Hk|Hk].
  - rewrite IH by assumption. destruct (f k) eqn:Ek; auto.
    destruct (string_dec t k) as [->|Hne].
    + now rewrite Ek.
    + destruct (f t); auto. now apply get_set_other.
  - fold (Py.assign_each f (match f t with Some v => Py.set d t v | None => d end) ts).
    rewrite get_assign_each_notin by assumption.
    destruct Hin as [->|]; [|tauto].
    destruct (f k); auto. apply get_set_same.
Qed.

Lemma NoDup_keys_assign_each f ts : forall d,
  NoDup (Py.keys d) -> NoDup (Py.keys (Py.assign_each f d ts)).
Proof.
  induction ts as [|t ts IH]; simpl; intros d Hnd; auto.
  unfold Py.assign_each in *. simpl. apply IH.
  destruct (f t); auto using NoDup_keys_set.
Qed.
End DictFacts.


Lemma contains_In l x : Py.contains l x = true <-> In x l.
Proof.
  unfold Py.contains. rewrite existsb_exists. split.
  - intros [y [Hy E]]. apply String.eqb_eq in E. now subst.
  - intros H. exists x. split; auto. apply String.eqb_refl.
Qed.

Lemma Counter_snoc l x :
  Py.Counter (l ++ [x]) =
  Py.set (Py.Counter l) x (Py.count_of (Py.Counter l) x + 1).
Proof. unfold Py.Counter. now rewrite fold_left_app. Qed.

Lemma frequency_snoc l x y :
  frequency (l ++ [x]) y = frequency l y + (if string_dec x y then 1 else 0).
Proof.
  unfold frequency. rewrite count_occ_app, Nat2Z.inj_add.
  cbn [count_occ]. now destruct (string_dec x y).
Qed.

Lemma count_of_Counter l x : Py.count_of (Py.Counter l) x = frequency l x.
Proof.
  induction l as [|y l IH] using rev_ind; [reflexivity|].
  rewrite Counter_snoc, frequency_snoc, <- IH. unfold Py.count_of.
  destruct (string_dec y x) as [->|Hne].
  - now rewrite get_set_same.
  - rewrite get_set_other by assumption. lia.
Qed.

Lemma frequency_pos l x : In x l <-> 0 < frequency l x.
Proof. unfold frequency. rewrite (count_occ_In string_dec). lia. Qed.

Lemma frequency_notin l x : ~ In x l -> frequency l x = 0.
Proof.
  intros H. unfold frequency.
  apply (count_occ_not_In string_dec) in H. lia.
Qed.

Lemma keys_Counter_In l x : In x (Py.keys (Py.Counter l)) <-> In x l.
Proof.
  induction l as [|y l IH] using rev_ind; [simpl; tauto|].
  rewrite Counter_snoc, keys_set, in_app_iff. simpl.
  destruct (Py.get (Py.Counter l) y) eqn:E.
  - rewrite IH. split; [tauto|]. intros [H|[->|[]]]; auto.
    apply IH. destruct (in_dec string_dec x (Py.keys (Py.Counter l))); auto.
    apply get_None_notin in n. congruence.
  - rewrite in_app_iff, IH. simpl. tauto.
Qed.

Lemma NoDup_keys_Counter l : NoDup (Py.keys (Py.Counter l)).
Proof.
  induction l as [|y l IH] using rev_ind; [constructor|].
  rewrite Counter_snoc. now apply NoDup_keys_set.
Qed.

Lemma get_Counter l x :
  In x l -> Py.get (Py.Counter l) x = Some (frequency l x).
Proof.
  intros H. apply keys_Counter_In in H.
  destruct (Py.get (Py.Counter l) x) eqn:E.
  - rewrite <- count_of_Counter. unfold Py.count_of. now rewrite E.
  - apply get_None_notin in E. contradiction.
Qed.

Lemma In_Counter l x c :
  In (x, c) (Py.Counter l) -> In x l /\ c = frequency l x.
Proof.
  intros H. assert (Hin : In x l).
  { apply keys_Counter_In. change x with (fst (x, c)). now apply in_map. }
  split; auto. apply In_get in H; [|apply NoDup_keys_Counter].
  rewrite get_Counter in H by assumption. congruence.
Qed.

(** *** Order of the keys of a counter: order of first occurrence *)

Lemma first_index_lt t l : In t l -> (first_index t l < List.length l)%nat.
Proof.
  induction l as [|x l IH]; simpl; [tauto|].
  destruct (String.eqb_spec x t); [lia|]. intros [?|H]; [contradiction|].
  apply IH in H. lia.
Qed.

Lemma first_index_notin t l : ~ In t l -> first_index t l = List.length l.
Proof.
  induction l as [|x l IH]; simpl; auto.
  destruct (String.eqb_spec x t); [tauto|]. intros H. rewrite IH; tauto.
Qed.

Lemma first_index_app_in t l l' :
  In t l -> first_index t (l ++ l') = first_index t l.
Proof.
  induction l as [|x l IH]; simpl; [tauto|].
  destruct (String.eqb_spec x t); auto. intros [?|H]; [contradiction|].
  now rewrite IH.
Qed.

Lemma first_index_app_notin t l l' :
  ~ In t l -> first_index t (l ++ l') = (List.length l + first_index t l')%nat.
Proof.
  induction l as [|x l IH]; simpl; auto.
  destruct (String.eqb_spec x t); [tauto|]. intros H. rewrite IH; tauto.
Qed.

Lemma first_index_inj t u l :
  In t l -> In u l -> first_index t l = first_index u l -> t = u.
Proof.
  induction l as [|x l IH]; simpl; [tauto|].
  destruct (String.eqb_spec x t), (String.eqb_spec x u);
    try congruence; try discriminate.
  intros [?|Ht] [?|Hu]; try contradiction. intros E. apply IH; auto.
Qed.

Lemma keys_Counter_snoc l x :
  Py.keys (Py.Counter (l ++ [x])) =
  if Py.contains l x then Py.keys (Py.Counter l)
  else Py.keys (Py.Counter l) ++ [x].
Proof.
  rewrite Counter_snoc, keys_set.
  destruct (Py.contains l x) eqn:E.
  - apply contains_In in E. now rewrite get_Counter.
  - destruct (Py.get (Py.Counter l) x) eqn:G; auto.
    apply get_Some_In in G. apply In_Counter in G as [G _].
    apply contains_In in G. congruence.
Qed.

Lemma keys_Counter_order l : forall k1 u k2 v,
  Py.keys (Py.Counter l) = k1 ++ u :: k2 -> In v k2 ->
  (first_index u l < first_index v l)%nat.
Proof.
  induction l as [|x l IH] using rev_ind; intros k1 u k2 v Hk Hv.
  - destruct k1; discriminate.
  - rewrite keys_Counter_snoc in Hk.
    destruct (Py.contains l x) eqn:E.
    + assert (Hu : In u l).
      { apply keys_Counter_In. rewrite Hk. apply in_elt. }
      assert (Hv' : In v l).
      { apply keys_Counter_In. rewrite Hk, in_app_iff. simpl. auto. }
      rewrite !first_index_app_in by assumption. eauto.
    + assert (Hx : ~ In x l) by (rewrite <- contains_In; congruence).
      destruct k2 as [|y k2 _] using rev_ind; [contradiction|].
      change (k1 ++ u :: k2 ++ [y]) with (k1 ++ (u :: k2) ++ [y]) in Hk.
      rewrite app_assoc in Hk. apply app_inj_tail in Hk as [Hk ->].
      assert (Hu : In u l).
      { apply keys_Counter_In. rewrite Hk. apply in_elt. }
      rewrite (first_index_app_in u) by assumption.
      apply in_app_or in Hv as [Hv|[->|[]]].
      * assert (Hv' : In v l).
        { apply keys_Counter_In. rewrite Hk, in_app_iff. simpl. auto. }
        rewrite first_index_app_in by assumption. eauto.
      * rewrite first_index_app_notin by assumption.
        apply first_index_lt in Hu. lia.
Qed.

Lemma fold_left_agree {A B : Type} (f g : A -> B -> A) (l : list B) :
  (forall a b, f a b = g a b) ->
  forall a, fold_left f l a = fold_left g l a.
Proof.
  intros H. induction l as [|b l IH]; simpl; intros a; auto.
  now rewrite H, IH.
Qed.

(* ===================================================================== *)
(** ** CapsWrangler *)
(* ===================================================================== *)

Section Caps.
Variable lower : term -> term.
Variable set_order : list term -> list term.

Local Abbreviation preferred := (_get_preferred_capitalization_ lower).
Local Abbreviation caps := (CapsWrangler_substitutions lower set_order).

(** The scan of [_get_preferred_capitalization_]: either no item beats the
    initial best, or the result is the first item that beats everything
    before it and is not beaten by anything after it. *)
Lemma best_scan (lower_term : term) (items : list (term * Z)) :
  forall best : option term * Z,
  let r :=
    fold_left
      (fun (best : option term * Z) (item : term * Z) =>
         let (alt_term, count) := item in
         if String.eqb lower_term (lower alt_term) && (snd best <? count)
         then (Some alt_term, count)
         else best)
      items best in
  (r = best /\
   forall a c, In (a, c) items -> lower a = lower_term -> c <= snd best) \/
  (exists l1 a c l2,
      items = l1 ++ (a, c) :: l2 /\ r = (Some a, c) /\
      lower a = lower_term /\ snd best < c /\
      (forall a' c', In (a', c') l1 -> lower a' = lower_term -> c' < c) /\
      (forall a' c', In (a', c') l2 -> lower a' = lower_term -> c' <= c)).
Proof.
  induction items as [|[a0 c0] items IH]; intros best; simpl.
  - left. split; auto. intros a c [].
  - destruct (String.eqb_spec lower_term (lower a0)) as [Hm|Hm]; simpl.
    + destruct (Z.ltb_spec (snd best) c0) as [Hlt|Hge].
      * destruct (IH (Some a0, c0)) as [[Hr Hall]|(l1 & a & c & l2 & -> & Hr & Ha & Hc & H1 & H2)].
        -- right. exists [], a0, c0, items. simpl in *.
           repeat split; auto. intros a' c' [].
        -- right. exists ((a0, c0) :: l1), a, c, l2. simpl in *.
           repeat split; auto; try lia.
           intros a' c' [Heq|Hin] Hl; [inversion Heq; subst; lia|eauto].
      * destruct (IH best) as [[Hr Hall]|(l1 & a & c & l2 & -> & Hr & Ha & Hc & H1 & H2)].
        -- left. split; auto.
           intros a c [Heq|Hin] Hl; [inversion Heq; subst; lia|eauto].
        -- right. exists ((a0, c0) :: l1), a, c, l2. simpl.
           repeat split; auto.
           intros a' c' [Heq|Hin] Hl; [inversion Heq; subst; lia|eauto].
    + destruct (IH best) as [[Hr Hall]|(l1 & a & c & l2 & -> & Hr & Ha & Hc & H1 & H2)].
      * left. split; auto.
        intros a c [Heq|Hin] Hl; [inversion Heq; subst; congruence|eauto].
      * right. exists ((a0, c0) :: l1), a, c, l2. simpl.
        repeat split; auto.
        intros a' c' [Heq|Hin] Hl; [inversion Heq; subst; congruence|eauto].
Qed.

(** The preferred capitalization depends on the case-insensitive group
    only. *)
Lemma preferred_same_group terms t t' :
  lower t = lower t' -> preferred terms t = preferred terms t'.
Proof. intros H. unfold _get_preferred_capitalization_. now rewrite H. Qed.

(** A member of the input always has a preferred capitalization: the
    [None] of the initial [best_term] never escapes. *)
Lemma preferred_some terms t :
  In t terms -> exists u, preferred terms t = Some u.
Proof.
  intros Hin. unfold _get_preferred_capitalization_.
  destruct (best_scan (lower t) (Py.items (_counter_ terms)) (None, 0))
    as [[_ Hall]|(l1 & a & c & l2 & _ & Hr & _)].
  - exfalso. specialize (Hall t (frequency terms t)). simpl in Hall.
    apply frequency_pos in Hin as Hpos.
    enough (frequency terms t <= 0) by lia. apply Hall; auto.
    apply get_Some_In. now apply get_Counter.
  - exists a. now rewrite Hr.
Qed.

Lemma preferred_is_member terms t u :
  preferred terms t = Some u -> preferred_member lower terms t u.
Proof.
  unfold _get_preferred_capitalization_. intros H.
  destruct (best_scan (lower t) (Py.items (_counter_ terms)) (None, 0))
    as [[Hr _]|(l1 & a & c & l2 & Hsplit & Hr & Ha & Hc & H1 & H2)];
    rewrite Hr in H; simpl in H; [discriminate|].
  injection H as ->. unfold Py.items, _counter_ in Hsplit.
  assert (Hu : In (u, c) (Py.Counter terms)) by (rewrite Hsplit; apply in_elt).
  apply In_Counter in Hu as [Hu ->].
  assert (Hitem : forall v, In v terms ->
            In (v, frequency terms v) l1 \/ v = u \/
            In (v, frequency terms v) l2).
  { intros v Hv. apply get_Counter, get_Some_In in Hv.
    rewrite Hsplit in Hv. apply in_app_or in Hv as [Hv|[Hv|Hv]]; auto.
    inversion Hv; auto. }
  repeat split; auto.
  - intros v Hv Hl. destruct (Hitem v Hv) as [Hv1|[->|Hv2]].
    + apply H1 in Hv1; auto. lia.
    + lia.
    + apply H2 in Hv2; auto.
  - intros v Hv Hl Heq. destruct (Hitem v Hv) as [Hv1|[->|Hv2]].
    + apply H1 in Hv1; auto. lia.
    + lia.
    + apply Nat.lt_le_incl.
      apply (keys_Counter_order terms (map fst l1) u (map fst l2) v).
      * unfold Py.keys. rewrite Hsplit, map_app. reflexivity.
      * change v with (fst (v, frequency terms v)). now apply in_map.
Qed.

Lemma preferred_member_unique terms t u u' :
  preferred_member lower terms t u -> preferred_member lower terms t u' ->
  u = u'.
Proof.
  intros (Hu & Hl & Hmax & Hfirst) (Hu' & Hl' & Hmax' & Hfirst').
  assert (Heq : frequency terms u = frequency terms u').
  { apply Z.le_antisymm; auto. }
  apply (first_index_inj u u' terms); auto.
  apply Nat.le_antisymm; auto.
Qed.

Lemma preferred_iff terms t u :
  In t terms ->
  (preferred terms t = Some u <-> preferred_member lower terms t u).
Proof.
  intros Hin. split; [apply preferred_is_member|].
  intros Hm. destruct (preferred_some terms t Hin) as [u' Hu'].
  rewrite Hu'. f_equal.
  eapply preferred_member_unique; eauto using preferred_is_member.
Qed.

(** The preferred capitalization is its own preferred capitalization. *)
Lemma preferred_idem terms t u :
  preferred terms t = Some u -> preferred terms u = Some u.
Proof.
  intros H. apply preferred_is_member in H as Hm.
  destruct Hm as (_ & Hl & _). now rewrite (preferred_same_group terms u t).
Qed.

Lemma caps_as_assign terms :
  caps terms = Py.assign_each (caps_choice lower terms) [] (set_order terms).
Proof.
  unfold CapsWrangler_substitutions, Py.assign_each, _unique_terms_.
  apply fold_left_agree. intros d t. unfold caps_choice.
  destruct (preferred terms t); auto.
  now destruct (negb _).
Qed.

Lemma caps_get terms t u :
  Py.get (caps terms) t = Some u <->
  In t (set_order terms) /\ preferred terms t = Some u /\ u <> t.
Proof.
  rewrite caps_as_assign.
  destruct (in_dec string_dec t (set_order terms)) as [Hin|Hni].
  - rewrite get_assign_each_in by assumption. unfold caps_choice. simpl.
    destruct (preferred terms t) as [p|]; [|split; [discriminate|intros (_ & ? & _); discriminate]].
    destruct (String.eqb_spec p t) as [->|Hne]; simpl.
    + split; [discriminate|]. intros (_ & E & Hne). congruence.
    + split.
      * intros E. injection E as ->. auto.
      * intros (_ & E & _). exact E.
  - rewrite get_assign_each_notin by assumption. simpl.
    split; [discriminate|tauto].
Qed.

Lemma caps_nodup terms : NoDup (Py.keys (caps terms)).
Proof. rewrite caps_as_assign. apply NoDup_keys_assign_each. constructor. Qed.

End Caps.

(* ===================================================================== *)
(** ** The inherited [wrangled_terms] *)
(* ===================================================================== *)

Lemma wrangled_with_map m terms :
  wrangled_with m terms = map (substitute m) terms.
Proof.
  unfold wrangled_with.
  enough (H : forall acc,
             fold_left
               (fun wrangled_terms t =>
                  match Py.get m t with
                  | Some updated_term => wrangled_terms ++ [updated_term]
                  | None => wrangled_terms ++ [t]
                  end) terms acc = acc ++ map (substitute m) terms)
    by apply (H []).
  induction terms as [|t terms IH]; intros acc; simpl.
  - now rewrite app_nil_r.
  - rewrite IH. unfold substitute at 2.
    destruct (Py.get m t); now rewrite <- app_assoc.
Qed.

Lemma In_wrangled_with m terms x :
  In x (wrangled_with m terms) <-> exists t, In t terms /\ x = substitute m t.
Proof.
  rewrite wrangled_with_map, in_map_iff. split; intros [t [H1 H2]]; eauto.
Qed.

(* ===================================================================== *)
(** ** Ranking: [sorted] and [nlargest] *)
(* ===================================================================== *)

Section Ranking.
Context {A : Type}.
Implicit Types (x y : A * Z) (l : list (A * Z)).

Lemma insert_desc_perm x l : Permutation (x :: l) (Py.insert_desc x l).
Proof.
  induction l as [|y l IH]; simpl; auto.
  destruct (snd x <? snd y); auto.
  rewrite perm_swap. now constructor.
Qed.

Lemma sorted_desc_perm l : Permutation l (Py.sorted_desc l).
Proof.
  induction l as [|x l IH]; simpl; auto.
  rewrite <- insert_desc_perm. now constructor.
Qed.

Lemma In_sorted_desc l x : In x (Py.sorted_desc l) <-> In x l.
Proof.
  split; apply Permutation_in;
    [symmetry|]; apply sorted_desc_perm.
Qed.

Lemma insert_desc_sorted x l :
  StronglySorted ranks_before l ->
  StronglySorted ranks_before (Py.insert_desc x l).
Proof.
  induction 1 as [|y l Hs IH Hall]; simpl.
  - repeat constructor.
  - destruct (Z.ltb_spec (snd x) (snd y)) as [Hlt|Hge].
    + constructor; auto.
      rewrite Forall_forall in *. intros z Hz.
      apply (Permutation_in _ (Permutation_sym (insert_desc_perm x l))) in Hz.
      destruct Hz as [<-|Hz]; [unfold ranks_before; lia|auto].
    + constructor; [now constructor|].
      constructor; [assumption|].
      rewrite Forall_forall in *. intros z Hz. specialize (Hall z Hz).
      unfold ranks_before in *. lia.
Qed.

Lemma sorted_desc_sorted l : StronglySorted ranks_before (Py.sorted_desc l).
Proof.
  induction l as [|x l IH]; simpl; [constructor|].
  now apply insert_desc_sorted.
Qed.

(** Entries with one and the same score keep their order. *)
Lemma sorted_desc_constant l s :
  (forall x, In x l -> snd x = s) -> Py.sorted_desc l = l.
Proof.
  induction l as [|x l IH]; intros H; simpl; auto.
  rewrite IH by (intros; apply H; now right).
  destruct l as [|y l]; simpl; auto.
  rewrite (H x), (H y) by (simpl; auto). now rewrite Z.ltb_irrefl.
Qed.

Lemma nlargest_length n l : (List.length (Py.nlargest n l) <= n)%nat.
Proof. unfold Py.nlargest. apply firstn_le_length. Qed.

Lemma nlargest_two l top second :
  Py.nlargest 2 l = [top; second] ->
  exists rest, Py.sorted_desc l = top :: second :: rest.
Proof.
  unfold Py.nlargest. destruct (Py.sorted_desc l) as [|a [|b rest]]; simpl;
    try discriminate.
  intros H. injection H as -> ->. now exists rest.
Qed.
End Ranking.

(* ===================================================================== *)
(** ** TextWrangler *)
(* ===================================================================== *)

Section Text.
Variable set_order : list term -> list term.
Variable default_processor : term -> term.
Variable default_scorer : term -> term -> Z.

Local Abbreviation score q c :=
  (default_scorer (default_processor q) (default_processor c)).
Local Abbreviation candidates :=
  (extractWithoutOrder default_processor default_scorer).
Local Abbreviation bests := (extractBests default_processor default_scorer).
Local Abbreviation text :=
  (TextWrangler_substitutions set_order default_processor default_scorer).
Local Abbreviation choice :=
  (text_choice set_order default_processor default_scorer).

Lemma In_candidates q choices c s :
  In (c, s) (candidates q choices) <->
  In c choices /\ s = score q c /\ 0 <= s.
Proof.
  unfold extractWithoutOrder. rewrite filter_In, in_map_iff. simpl.
  rewrite Z.leb_le. split.
  - intros [[c' [E Hin]] Hs]. inversion E; subst. auto.
  - intros (Hin & -> & Hs). split; eauto.
Qed.

Lemma keys_candidates q choices :
  map fst (candidates q choices) =
  filter (fun c => 0 <=? score q c) choices.
Proof.
  unfold extractWithoutOrder.
  induction choices as [|c choices IH]; simpl; auto.
  destruct (0 <=? score q c); simpl; now rewrite IH.
Qed.

Lemma candidates_length q choices :
  (List.length (candidates q choices) <= List.length choices)%nat.
Proof.
  unfold extractWithoutOrder.
  etransitivity; [apply filter_length_le|]. now rewrite length_map.
Qed.

Lemma In_bests q choices n c s :
  In (c, s) (bests q choices n) -> In c choices /\ s = score q c /\ 0 <= s.
Proof.
  unfold extractBests, Py.nlargest. intros H.
  apply In_candidates, In_sorted_desc.
  rewrite <- (firstn_skipn n). apply in_or_app. now left.
Qed.

Lemma bests_length q choices n :
  (List.length (bests q choices n) <= List.length choices)%nat.
Proof.
  unfold extractBests, Py.nlargest. rewrite length_firstn.
  etransitivity; [apply Nat.le_min_r|].
  rewrite <- (Permutation_length (sorted_desc_perm _)).
  apply candidates_length.
Qed.

Lemma text_as_assign terms threshold :
  text terms threshold =
  Py.assign_each (choice terms threshold) [] (set_order terms).
Proof.
  unfold TextWrangler_substitutions, Py.assign_each, _unique_terms_.
  apply fold_left_agree. intros d t. unfold text_choice, _unique_terms_.
  cbv zeta.
  repeat match goal with |- context [if ?b then _ else _] => destruct b end;
    reflexivity.
Qed.

Lemma text_get terms threshold t u :
  Py.get (text terms threshold) t = Some u <->
  In t (set_order terms) /\ choice terms threshold t = Some u.
Proof.
  rewrite text_as_assign.
  destruct (in_dec string_dec t (set_order terms)) as [Hin|Hni].
  - rewrite get_assign_each_in by assumption. simpl.
    destruct (choice terms threshold t); intuition discriminate.
  - rewrite get_assign_each_notin by assumption. simpl.
    split; [discriminate|tauto].
Qed.

Lemma text_nodup terms threshold : NoDup (Py.keys (text terms threshold)).
Proof. rewrite text_as_assign. apply NoDup_keys_assign_each. constructor. Qed.

(** One round of the loop, in the words of the specification: the second
    of the two best candidates is recorded when its score exceeds the
    threshold and it is at least as frequent as [t]. *)
Lemma text_choice_iff terms threshold t u :
  choice terms threshold t = Some u <->
  exists top s,
    bests t (set_order terms) 2 = [top; (u, s)] /\
    threshold < s /\ frequency terms t <= frequency terms u.
Proof.
  unfold text_choice, _unique_terms_, _counter_. cbv zeta.
  rewrite !count_of_Counter.
  pose proof (nlargest_length 2 (candidates t (set_order terms))) as Hlen.
  fold (bests t (set_order terms) 2) in Hlen.
  destruct (bests t (set_order terms) 2) as [|a [|[b s] [|c rest]]];
    simpl in Hlen; try lia.
  - simpl. split; [discriminate|]. intros (? & ? & ? & _). discriminate.
  - simpl. split; [discriminate|]. intros (? & ? & ? & _). discriminate.
  - cbn [List.length last fst snd]. simpl (1 <? 2)%nat. cbv iota.
    destruct (Z.ltb_spec threshold s) as [Hs|Hs];
      [destruct (Z.leb_spec (frequency terms t) (frequency terms b)) as [Hf|Hf]|].
    + split.
      * intros E. injection E as <-. eauto.
      * intros (top & s' & E & _). inversion E; subst. reflexivity.
    + split; [discriminate|].
      intros (top & s' & E & _ & Hf'). inversion E; subst. lia.
    + split; [discriminate|].
      intros (top & s' & E & Hs' & _). inversion E; subst. lia.
Qed.

(** When the term is alone at the top score, the ranking starts with
    it and continues with the best of the other terms. *)
Lemma bests_strict t choices top u s :
  NoDup choices -> In t choices -> 0 <= score t t ->
  (forall v, In v choices -> v <> t -> score t v < score t t) ->
  bests t choices 2 = [top; (u, s)] ->
  top = (t, score t t) /\ u <> t /\ In u choices /\ s = score t u /\
  forall v, In v choices -> v <> t -> score t v <= s.
Proof.
  intros Hnd Ht Hself Hstrict Hb.
  assert (Hu : In (u, s) (bests t choices 2)) by (rewrite Hb; simpl; auto).
  assert (Htop : In top (bests t choices 2)) by (rewrite Hb; simpl; auto).
  destruct top as [x sx].
  apply In_bests in Hu as (Hu & Hs & Hs0), Htop as (Hx & Hsx & _).
  apply nlargest_two in Hb as [rest Hsorted].
  pose proof (sorted_desc_sorted (candidates t choices)) as Hss.
  pose proof (sorted_desc_perm (candidates t choices)) as Hperm.
  rewrite Hsorted in Hss, Hperm.
  assert (Hkeys : NoDup (x :: u :: map fst rest)).
  { change (NoDup (map fst ((x, sx) :: (u, s) :: rest))).
    eapply Permutation_NoDup; [apply Permutation_map, Hperm|].
    rewrite keys_candidates. now apply NoDup_filter. }
  apply StronglySorted_inv in Hss as [Hss' Hall].
  apply StronglySorted_inv in Hss' as [_ Hall'].
  rewrite Forall_forall in Hall, Hall'.
  assert (Hentry : forall v, In v choices -> 0 <= score t v ->
            v = x \/ In (v, score t v) ((u, s) :: rest)).
  { intros v Hv Hv0.
    assert (Hin : In (v, score t v) (candidates t choices))
      by (apply In_candidates; auto).
    apply (Permutation_in _ Hperm) in Hin. destruct Hin as [E|Hin]; auto.
    inversion E; auto. }
  assert (Hxt : x = t).
  { destruct (Hentry t Ht Hself) as [E|Hin]; auto.
    apply Hall in Hin. unfold ranks_before in Hin. simpl in Hin.
    destruct (string_dec x t) as [E|Hne]; auto.
    specialize (Hstrict x Hx Hne). lia. }
  subst x. split; [congruence|]. split; [|repeat split; auto].
  - intros E. subst u. inversion Hkeys as [|? ? Hni _]. apply Hni. now left.
  - intros v Hv Hvt. destruct (Z.le_gt_cases 0 (score t v)) as [Hv0|Hv0]; [|lia].
    destruct (Hentry v Hv Hv0) as [E|[E|Hin]]; [contradiction| |].
    + inversion E. lia.
    + apply Hall' in Hin. unfold ranks_before in Hin. simpl in Hin. lia.
Qed.

(** When every score is the same, the ranking is the iteration order. *)
Lemma bests_constant q choices n s :
  0 <= s -> (forall c, In c choices -> score q c = s) ->
  bests q choices n = firstn n (map (fun c => (c, s)) choices).
Proof.
  intros Hs Hall. unfold extractBests, Py.nlargest.
  assert (E : candidates q choices = map (fun c => (c, s)) choices).
  { unfold extractWithoutOrder.
    induction choices as [|c choices IH]; simpl; auto.
    rewrite (Hall c) by (simpl; auto).
    destruct (Z.leb_spec 0 s); [|lia]. cbn [snd].
    rewrite IH; auto. intros c' Hc'. apply Hall. now right. }
  rewrite E. f_equal. apply (sorted_desc_constant _ s).
  intros x Hx. apply in_map_iff in Hx as [c [<- _]]. reflexivity.
Qed.

End Text.

(* ===================================================================== *)
(** ** Wrangler *)
(* ===================================================================== *)

Lemma fold_items_as_assign {X V : Type} (f : term -> option V)
  (g : Py.dict V -> term * X -> Py.dict V) (its : list (term * X)) :
  (forall d t c, In (t, c) its ->
     g d (t, c) = match f t with Some v => Py.set d t v | None => d end) ->
  forall d, fold_left g its d = Py.assign_each f d (map fst its).
Proof.
  unfold Py.assign_each.
  induction its as [|[t c] its IH]; intros Hg d; simpl; auto.
  rewrite Hg by (simpl; auto). apply IH.
  intros d' t' c' Hin. apply Hg. now right.
Qed.

Lemma get_assign_each_keys {V : Type} (m d : Py.dict V) k :
  Py.get (Py.assign_each (Py.get m) d (Py.keys m)) k =
  match Py.get m k with Some v => Some v | None => Py.get d k end.
Proof.
  destruct (in_dec string_dec k (Py.keys m)) as [Hin|Hni].
  - now apply get_assign_each_in.
  - rewrite get_assign_each_notin by assumption.
    apply get_None_notin in Hni. now rewrite Hni.
Qed.

Lemma In_keys_get {V : Type} (m : Py.dict V) k :
  In k (Py.keys m) -> exists v, Py.get m k = Some v.
Proof.
  intros H. destruct (Py.get m k) as [v|] eqn:E; eauto.
  apply get_None_notin in E. contradiction.
Qed.

Lemma In_values_get {V : Type} (m : Py.dict V) v :
  NoDup (Py.keys m) -> In v (Py.values m) -> exists k, Py.get m k = Some v.
Proof.
  intros Hnd H. apply in_map_iff in H as [[k v'] [E Hin]]. simpl in E. subst v'.
  exists k. now apply In_get.
Qed.

Section Composite.
Variable lower : term -> term.
Variable set_order : list term -> list term.
Variable default_processor : term -> term.
Variable default_scorer : term -> term -> Z.

Local Abbreviation caps := (CapsWrangler_substitutions lower set_order).
Local Abbreviation text :=
  (TextWrangler_substitutions set_order default_processor default_scorer).
Local Abbreviation composite :=
  (Wrangler_substitutions lower set_order default_processor default_scorer).
Local Abbreviation preferred := (_get_preferred_capitalization_ lower).

(** One lookup in the merged map, in terms of the two maps it is merged
    from. *)
Lemma Wrangler_get terms t :
  let text_map :=
    text (wrangled_with (caps terms) terms) default_threshold in
  Py.get (composite terms) t =
  match Py.get text_map t with
  | Some text_sub => Some text_sub
  | None =>
      match Py.get (caps terms) t with
      | Some caps_sub => Some (substitute text_map caps_sub)
      | None => None
      end
  end.
Proof.
  intros text_map. unfold Wrangler_substitutions. cbv zeta.
  fold text_map. unfold Py.items.
  rewrite (fold_items_as_assign (Py.get text_map)).
  2:{ intros d k c Hin. apply In_get in Hin; [|apply text_nodup].
      now rewrite Hin. }
  fold (Py.keys text_map). rewrite get_assign_each_keys.
  destruct (Py.get text_map t) as [v|] eqn:Et; auto.
  rewrite (fold_items_as_assign
             (fun k => match Py.get (caps terms) k with
                       | Some c => Py.get text_map c
                       | None => None
                       end)).
  2:{ intros d k c Hin. apply In_get in Hin; [|apply caps_nodup].
      now rewrite Hin. }
  fold (Py.keys (caps terms)).
  destruct (in_dec string_dec t (Py.keys (caps terms))) as [Hin|Hni].
  - rewrite get_assign_each_in by assumption.
    destruct (Py.get (caps terms) t) as [c|] eqn:Ec; auto.
    unfold substitute. now destruct (Py.get text_map c).
  - rewrite get_assign_each_notin by assumption.
    apply get_None_notin in Hni. now rewrite Hni.
Qed.

Lemma Wrangler_nodup terms : NoDup (Py.keys (composite terms)).
Proof.
  unfold Wrangler_substitutions. cbv zeta.
  set (text_map := text (wrangled_with (caps terms) terms) default_threshold).
  unfold Py.items.
  rewrite (fold_items_as_assign (Py.get text_map)).
  2:{ intros d k c Hin. apply In_get in Hin; [|apply text_nodup].
      now rewrite Hin. }
  apply NoDup_keys_assign_each.
  rewrite (fold_items_as_assign
             (fun k => match Py.get (caps terms) k with
                       | Some c => Py.get text_map c
                       | None => None
                       end)).
  2:{ intros d k c Hin. apply In_get in Hin; [|apply caps_nodup].
      now rewrite Hin. }
  apply NoDup_keys_assign_each, caps_nodup.
Qed.

Hypothesis set_order_ok : admissible_order set_order.

Lemma unique_terms_In terms x : In x (set_order terms) <-> In x terms.
Proof. apply set_order_ok. Qed.

(** Every term of the capitalization-normalized sequence is the preferred
    capitalization of an input term. *)
Lemma caps_wrangled_preferred terms x :
  In x (wrangled_with (caps terms) terms) ->
  exists t, In t terms /\ preferred terms t = Some x.
Proof.
  rewrite In_wrangled_with. intros [t [Ht ->]]. exists t. split; auto.
  unfold substitute. destruct (Py.get (caps terms) t) as [u|] eqn:E.
  - now apply caps_get in E.
  - destruct (preferred_some lower terms t Ht) as [p Hp]. rewrite Hp.
    destruct (string_dec p t) as [->|Hne]; auto.
    assert (Py.get (caps terms) t = Some p); [|congruence].
    apply caps_get. rewrite unique_terms_In. auto.
Qed.

Lemma caps_wrangled_fixed terms x :
  In x (wrangled_with (caps terms) terms) ->
  In x terms /\ preferred terms x = Some x /\ Py.get (caps terms) x = None.
Proof.
  intros H. apply caps_wrangled_preferred in H as [t [Ht Hp]].
  pose proof (preferred_idem lower terms t x Hp) as Hfix.
  apply preferred_is_member in Hp as Hm. destruct Hm as (Hx & _).
  repeat split; auto.
  destruct (Py.get (caps terms) x) as [u|] eqn:E; auto.
  apply caps_get in E as (_ & E & Hne). congruence.
Qed.

(** In the capitalization-normalized sequence every case-insensitive group
    has one member. *)
Lemma caps_wrangled_groups terms x y :
  In x (wrangled_with (caps terms) terms) ->
  In y (wrangled_with (caps terms) terms) ->
  lower x = lower y -> x = y.
Proof.
  intros Hx Hy Hl.
  apply caps_wrangled_fixed in Hx as (_ & Hx & _), Hy as (_ & Hy & _).
  rewrite (preferred_same_group lower terms x y Hl) in Hx. congruence.
Qed.

Lemma text_keys_values terms threshold t u :
  Py.get (text terms threshold) t = Some u -> In t terms /\ In u terms.
Proof.
  intros H. apply text_get in H as [Ht Hc].
  apply text_choice_iff in Hc as (top & s & Hb & _).
  rewrite unique_terms_In in Ht. split; auto.
  assert (Hu : In (u, s)
                 (extractBests default_processor default_scorer t
                    (set_order terms) 2)) by (rewrite Hb; simpl; auto).
  apply In_bests in Hu as [Hu _]. now apply unique_terms_In.
Qed.

End Composite.

(* ===================================================================== *)
(** ** The concrete iteration orders are admissible *)
(* ===================================================================== *)

Lemma first_seen_from_In l : forall seen x,
  In x (Concrete.first_seen_from seen l) <-> In x l /\ ~ In x seen.
Proof.
  induction l as [|y l IH]; intros seen x; simpl; [tauto|].
  destruct (Py.contains seen y) eqn:E.
  - apply contains_In in E. rewrite IH. split; [tauto|].
    intros [[->|H] Hn]; tauto.
  - assert (Hy : ~ In y seen) by (rewrite <- contains_In; congruence).
    simpl. rewrite IH. simpl. split.
    + intros [->|[H1 H2]]; tauto.
    + intros [[->|H] Hn]; auto.
      destruct (string_dec y x); auto. right. tauto.
Qed.

Lemma first_seen_from_NoDup l : forall seen,
  NoDup (Concrete.first_seen_from seen l).
Proof.
  induction l as [|y l IH]; intros seen; simpl; [constructor|].
  destruct (Py.contains seen y); auto.
  constructor; auto. rewrite first_seen_from_In. simpl. tauto.
Qed.

Lemma first_seen_admissible : admissible_order Concrete.first_seen.
Proof.
  intros l. split; [apply first_seen_from_NoDup|].
  intros x. unfold Concrete.first_seen. rewrite first_seen_from_In.
  simpl. tauto.
Qed.

Lemma last_seen_first_admissible : admissible_order Concrete.last_seen_first.
Proof.
  intros l. destruct (first_seen_admissible l) as [Hnd Hin].
  unfold Concrete.last_seen_first. split.
  - now apply NoDup_rev.
  - intros x. now rewrite <- in_rev.
Qed.

(* ===================================================================== *)
(** ** Properties of the three normalizers *)
(* ===================================================================== *)

Section Properties.
Variable lower : term -> term.
Variable set_order : list term -> list term.
Variable default_processor : term -> term.
Variable default_scorer : term -> term -> Z.

Local Abbreviation caps := (CapsWrangler_substitutions lower set_order).
Local Abbreviation text :=
  (TextWrangler_substitutions set_order default_processor default_scorer).
Local Abbreviation composite :=
  (Wrangler_substitutions lower set_order default_processor default_scorer).
Local Abbreviation substitutions_of :=
  (substitutions lower set_order default_processor default_scorer).
Local Abbreviation wrangled_terms_of :=
  (wrangled_terms lower set_order default_processor default_scorer).
Local Abbreviation wrangle_of :=
  (wrangle lower set_order default_processor default_scorer).
Local Abbreviation score q c :=
  (default_scorer (default_processor q) (default_processor c)).

(** C9.  For every normalizer, [wrangled_terms] is as long as the input
    sequence, and at every position it holds the substitution recorded for
    the input term at that position when there is one and the input term
    itself otherwise; order is preserved. *)
Theorem wrangled_terms_pointwise (w : wrangler) :
  List.length (wrangled_terms_of w) = List.length (_terms_ w) /\
  forall i : nat,
    nth_error (wrangled_terms_of w) i =
    option_map
      (fun t => match Py.get (substitutions_of w) t with
                | Some u => u
                | None => t
                end)
      (nth_error (_terms_ w) i).
Proof.
  unfold wrangled_terms. rewrite wrangled_with_map. split.
  - apply length_map.
  - intros i. apply nth_error_map.
Qed.

(** C7.  For every normalizer, [wrangle term] raises exactly when [term]
    is not in the input sequence of the instance, and the error is the
    failed assertion; for a term of the input it returns the recorded
    substitution when there is one and the term itself otherwise. *)
Theorem wrangle_spec (w : wrangler) (t : term) :
  ((exists e, wrangle_of w t = Raise e) <-> ~ In t (_terms_ w)) /\
  (~ In t (_terms_ w) ->
   wrangle_of w t =
   Raise (AssertionError
            ("Cannot wrangle a term outside the original input terms: " ++ t)
            %string)) /\
  (In t (_terms_ w) ->
   wrangle_of w t =
   Return (match Py.get (substitutions_of w) t with
           | Some sub => sub
           | None => t
           end)).
Proof.
  unfold wrangle.
  destruct (Py.contains (_terms_ w) t) eqn:E.
  - apply contains_In in E. split; [|split].
    + split; [intros [e He]; discriminate|tauto].
    + tauto.
    + intros _. now destruct (Py.get _ t).
  - assert (Hni : ~ In t (_terms_ w)) by (rewrite <- contains_In; congruence).
    split; [|split].
    + split; [tauto|eauto].
    + reflexivity.
    + tauto.
Qed.

(** C10.  Frequency dominance of the capitalization pass: whenever the
    Capitalization Normalizer records [t -> u], [u] occurs in the input
    sequence at least as often as [t]. *)
Theorem CapsWrangler_frequency_dominance (terms : list term) (t u : term) :
  Py.get (substitutions_of (CapsWrangler terms)) t = Some u ->
  frequency terms t <= frequency terms u.
Proof.
  simpl. intros H. apply caps_get in H as (_ & Hp & _).
  apply preferred_is_member in Hp as (Hu & _ & Hmax & _).
  destruct (in_dec string_dec t terms) as [Ht|Ht].
  - now apply Hmax.
  - rewrite (frequency_notin terms t Ht).
    apply frequency_pos in Hu. lia.
Qed.

(** C2.  For every distinct term [t] of the input of the Capitalization
    Normalizer, the map records [t -> u] exactly when [u] is the preferred
    member of the case-insensitive group of [t] (highest frequency, the
    first met among those of highest frequency) and differs from [t]; no
    substitution is recorded when the group has [t] as its only member, nor
    when [t] is strictly more frequent than every other member. *)
Theorem CapsWrangler_substitutions_spec (terms : list term) (t : term) :
  admissible_order set_order ->
  In t terms ->
  (forall u, Py.get (caps terms) t = Some u <->
             preferred_member lower terms t u /\ u <> t) /\
  ((forall v, In v terms -> lower v = lower t -> v = t) ->
   Py.get (caps terms) t = None) /\
  ((forall v, In v terms -> lower v = lower t -> v <> t ->
      frequency terms v < frequency terms t) ->
   Py.get (caps terms) t = None).
Proof using lower set_order.
  clear default_processor default_scorer.
  intros Hord Ht.
  assert (Hiff : forall u, Py.get (caps terms) t = Some u <->
                           preferred_member lower terms t u /\ u <> t).
  { intros u. rewrite caps_get, (preferred_iff lower terms t u Ht).
    destruct (Hord terms) as [_ Hin]. rewrite Hin. tauto. }
  split; [exact Hiff|]. split.
  - intros Hone. destruct (Py.get (caps terms) t) as [u|] eqn:E; auto.
    destruct (proj1 (Hiff u) eq_refl) as [(Hu & Hl & _) Hne]. elim Hne. auto.
  - intros Hmax. destruct (Py.get (caps terms) t) as [u|] eqn:E; auto.
    destruct (proj1 (Hiff u) eq_refl) as [(Hu & Hl & Hfreq & _) Hne].
    specialize (Hmax u Hu Hl Hne). specialize (Hfreq t Ht eq_refl). lia.
Qed.

(** C8.  Idempotence of the capitalization pass: a Capitalization
    Normalizer run on the [wrangled_terms] of a Capitalization Normalizer
    records no substitution, whatever the input sequence. *)
Theorem CapsWrangler_idempotent (terms : list term) :
  admissible_order set_order ->
  substitutions_of (CapsWrangler (wrangled_terms_of (CapsWrangler terms))) = [].
Proof.
  intros Hord. simpl. unfold wrangled_terms. simpl.
  set (w := wrangled_with (caps terms) terms).
  destruct (caps w) as [|[k v] d] eqn:E; auto. exfalso.
  assert (Hget : Py.get (caps w) k = Some v).
  { rewrite E. simpl. now rewrite String.eqb_refl. }
  apply caps_get in Hget as (Hk & Hp & Hne).
  destruct (Hord w) as [_ Hin]. apply Hin in Hk.
  apply preferred_is_member in Hp as (Hv & Hl & _).
  apply Hne. subst w.
  now apply (caps_wrangled_groups lower set_order Hord terms).
Qed.

(** C4.  The Fuzzy Text Normalizer records [t -> u] if and only if [t] is a
    distinct term of its input, [u] is the candidate it selects for [t]
    (the second of the two best-ranked), the score of [u] is strictly above
    the threshold and [u] is at least as frequent as [t]; consequently
    every recorded [t -> u] has [frequency u >= frequency t]. *)
Theorem TextWrangler_records_iff (terms : list term) (threshold : Z)
  (t u : term) :
  (Py.get (substitutions_of (TextWrangler terms threshold)) t = Some u <->
   In t (_unique_terms_ set_order terms) /\
   exists top s,
     extractBests default_processor default_scorer t
       (_unique_terms_ set_order terms) 2 = [top; (u, s)] /\
     s = score t u /\ threshold < s /\
     frequency terms t <= frequency terms u) /\
  (Py.get (substitutions_of (TextWrangler terms threshold)) t = Some u ->
   frequency terms t <= frequency terms u).
Proof.
  simpl. unfold _unique_terms_.
  assert (Hiff : Py.get (text terms threshold) t = Some u <->
                 In t (set_order terms) /\
                 exists top s,
                   extractBests default_processor default_scorer t
                     (set_order terms) 2 = [top; (u, s)] /\
                   s = score t u /\ threshold < s /\
                   frequency terms t <= frequency terms u).
  { rewrite text_get, text_choice_iff. split.
    - intros (Ht & top & s & Hb & Hs & Hf). split; auto.
      exists top, s. repeat split; auto.
      assert (Hu : In (u, s)
                     (extractBests default_processor default_scorer t
                        (set_order terms) 2)) by (rewrite Hb; simpl; auto).
      now apply In_bests in Hu.
    - intros (Ht & top & s & Hb & _ & Hs & Hf). eauto 6. }
  split; [exact Hiff|].
  intros H. apply Hiff in H as (_ & top & s & _ & _ & _ & Hf). exact Hf.
Qed.

(** Where no other term ties with the term's own score, the loop of
    [TextWrangler.substitutions] does what it is meant to.  A term with
    fewer than two scored candidates gets no substitution.  For a term [t]
    of the input whose own score is not negative and strictly above its
    score against every other term, the top-ranked candidate is [t] itself
    and the candidate examined for substitution is the best-scoring term
    distinct from [t]; so is every substitution recorded for [t]. *)
Theorem TextWrangler_examines_best_distinct (terms : list term)
  (threshold : Z) (t : term) :
  admissible_order set_order ->
  ((List.length
      (extractWithoutOrder default_processor default_scorer t
         (_unique_terms_ set_order terms)) < 2)%nat ->
   Py.get (text terms threshold) t = None) /\
  (In t terms ->
   0 <= score t t ->
   (forall v, In v terms -> v <> t -> score t v < score t t) ->
   (forall top u s,
      extractBests default_processor default_scorer t
        (_unique_terms_ set_order terms) 2 = [top; (u, s)] ->
      top = (t, score t t) /\ u <> t /\ In u terms /\ s = score t u /\
      forall v, In v terms -> v <> t -> score t v <= s) /\
   (forall u,
      Py.get (text terms threshold) t = Some u ->
      u <> t /\ In u terms /\ threshold < score t u /\
      forall v, In v terms -> v <> t -> score t v <= score t u)).
Proof.
  intros Hord. unfold _unique_terms_.
  destruct (Hord terms) as [Hnd Hin]. split.
  - intros Hlen.
    destruct (Py.get (text terms threshold) t) as [u|] eqn:E; auto.
    apply text_get in E as [_ E].
    apply text_choice_iff in E as (top & s & Hb & _). exfalso.
    apply nlargest_two in Hb as [rest Hs].
    apply (f_equal (@List.length _)) in Hs.
    rewrite <- (Permutation_length (sorted_desc_perm _)) in Hs.
    simpl in Hs. lia.
  - intros Ht Hself Hstrict.
    assert (Hbest : forall top u s,
              extractBests default_processor default_scorer t
                (set_order terms) 2 = [top; (u, s)] ->
              top = (t, score t t) /\ u <> t /\ In u terms /\
              s = score t u /\
              forall v, In v terms -> v <> t -> score t v <= s).
    { intros top u s Hb.
      destruct (bests_strict default_processor default_scorer
                  t (set_order terms) top u s) as (H1 & H2 & H3 & H4 & H5);
        auto.
      - now apply Hin.
      - intros v Hv. apply Hstrict. now apply Hin.
      - repeat split; auto. + now apply Hin.
        + intros v Hv. apply H5. now apply Hin. }
    split; [exact Hbest|].
    intros u E. apply text_get in E as [_ E].
    apply text_choice_iff in E as (top & s & Hb & Hs & _).
    destruct (Hbest top u s Hb) as (_ & H2 & H3 & -> & H5). auto.
Qed.

(** [get] on each map, for the closure and self-mapping properties. *)
Lemma substitutions_get_closed (w : wrangler) (t u : term) :
  admissible_order set_order ->
  Py.get (substitutions_of w) t = Some u ->
  In t (_terms_ w) /\ In u (_terms_ w).
Proof.
  intros Hord. destruct w as [terms|terms threshold|terms]; simpl.
  - intros H. apply caps_get in H as (Ht & Hp & _).
    apply preferred_is_member in Hp as (Hu & _).
    split; auto. now apply (Hord terms).
  - now apply text_keys_values.
  - rewrite Wrangler_get.
    set (text_map := text (wrangled_with (caps terms) terms) default_threshold).
    assert (Htext : forall a b, Py.get text_map a = Some b ->
                                In a terms /\ In b terms).
    { intros a b H.
      apply (text_keys_values set_order default_processor default_scorer Hord)
        in H as [Ha Hb].
      apply (caps_wrangled_fixed lower set_order Hord) in Ha as [Ha _].
      apply (caps_wrangled_fixed lower set_order Hord) in Hb as [Hb _].
      auto. }
    destruct (Py.get text_map t) as [v|] eqn:Et.
    + intros E. injection E as <-. eauto.
    + destruct (Py.get (caps terms) t) as [c|] eqn:Ec; [|discriminate].
      intros E. injection E as <-.
      apply caps_get in Ec as (Ht & Hp & _).
      apply preferred_is_member in Hp as (Hc & _).
      split; [now apply (Hord terms)|].
      unfold substitute. destruct (Py.get text_map c) as [v|] eqn:Ev; auto.
      now apply Htext in Ev.
Qed.

Lemma substitutions_nodup (w : wrangler) : NoDup (Py.keys (substitutions_of w)).
Proof.
  destruct w; simpl;
    [apply caps_nodup|apply text_nodup|apply Wrangler_nodup].
Qed.

(** C6.  Domain closure: for every normalizer, each key and each value of
    its substitution map belongs to the Distinct Term Set of the input
    sequence given to that normalizer. *)
Theorem substitutions_domain_closed (w : wrangler) :
  admissible_order set_order ->
  (forall k, In k (Py.keys (substitutions_of w)) ->
             In k (_unique_terms_ set_order (_terms_ w))) /\
  (forall v, In v (Py.values (substitutions_of w)) ->
             In v (_unique_terms_ set_order (_terms_ w))).
Proof.
  intros Hord. unfold _unique_terms_. split.
  - intros k Hk. apply In_keys_get in Hk as [v Hk].
    apply substitutions_get_closed in Hk as [Hk _]; auto.
    now apply (Hord (_terms_ w)).
  - intros v Hv. apply In_values_get in Hv as [k Hk];
      [|apply substitutions_nodup].
    apply substitutions_get_closed in Hk as [_ Hk]; auto.
    now apply (Hord (_terms_ w)).
Qed.

(** C1, amended.  For every term [t], one lookup in the Composite
    Normalizer's map gives the two-pass form of [t]: the Capitalization
    Normalizer's substitution applied to [t], then the Fuzzy Text
    Normalizer's substitution, computed over the capitalization-normalized
    sequence, applied to that intermediate.  No value of the composite map
    is a key of the Capitalization Normalizer's map. *)
Theorem Wrangler_single_lookup (terms : list term) :
  admissible_order set_order ->
  let caps_map := substitutions_of (CapsWrangler terms) in
  let text_map :=
    substitutions_of
      (TextWrangler (wrangled_terms_of (CapsWrangler terms))
         default_threshold) in
  (forall t,
     substitute (substitutions_of (Wrangler terms)) t =
     substitute text_map (substitute caps_map t)) /\
  no_value_is_key_of (substitutions_of (Wrangler terms)) caps_map.
Proof.
  intros Hord. simpl. unfold wrangled_terms. simpl.
  set (text_map := text (wrangled_with (caps terms) terms) default_threshold).
  assert (Htext : forall a b, Py.get text_map a = Some b ->
            Py.get (caps terms) a = None /\ Py.get (caps terms) b = None).
  { intros a b H.
    apply (text_keys_values set_order default_processor default_scorer Hord)
      in H as [Ha Hb].
    apply (caps_wrangled_fixed lower set_order Hord) in Ha as (_ & _ & Ha).
    apply (caps_wrangled_fixed lower set_order Hord) in Hb as (_ & _ & Hb).
    auto. }
  split.
  - intros t. unfold substitute at 1. rewrite Wrangler_get. fold text_map.
    destruct (Py.get text_map t) as [v|] eqn:Et.
    + destruct (Htext t v Et) as [Hc _].
      unfold substitute. now rewrite Hc, Et.
    + unfold substitute at 3.
      destruct (Py.get (caps terms) t) as [c|] eqn:Ec; auto.
      unfold substitute. now rewrite Et.
  - intros t u. rewrite Wrangler_get. fold text_map.
    destruct (Py.get text_map t) as [v|] eqn:Et.
    + intros E. injection E as <-. now apply (Htext t v).
    + destruct (Py.get (caps terms) t) as [c|] eqn:Ec; [|discriminate].
      intros E. injection E as <-. unfold substitute.
      destruct (Py.get text_map c) as [v|] eqn:Ev.
      * now apply (Htext c v).
      * apply caps_get in Ec as (_ & Hp & _).
        apply preferred_idem in Hp.
        destruct (Py.get (caps terms) c) as [x|] eqn:Ex; auto.
        apply caps_get in Ex as (_ & Hp' & Hne). congruence.
Qed.

(** The capitalization pass never maps a term to itself: its loop compares
    the preferred capitalization with the term before it assigns. *)
Lemma CapsWrangler_no_self_mapping (terms : list term) :
  no_self_mapping (caps terms).
Proof. intros t u H. now apply caps_get in H. Qed.

(** When all terms score alike against each other, as terms with one and
    the same processed form do, the ranking is the iteration order and the
    term that comes second in it is recorded as its own substitution. *)
Lemma TextWrangler_self_mapping_of_ties (terms : list term) (threshold s : Z)
  (x y : term) (rest : list term) :
  _unique_terms_ set_order terms = x :: y :: rest ->
  (forall q c, In q terms -> In c terms -> score q c = s) ->
  admissible_order set_order -> 0 <= s -> threshold < s ->
  Py.get (text terms threshold) y = Some y.
Proof.
  unfold _unique_terms_. intros Horder Hs Hord Hs0 Hthr.
  apply text_get. rewrite Horder. split; [simpl; auto|].
  apply text_choice_iff. exists (x, s), s. rewrite Horder.
  split; [|split; [assumption|lia]].
  rewrite (bests_constant default_processor default_scorer y _ 2 s); auto.
  intros c Hc.
  apply Hs; apply (Hord terms); rewrite Horder; simpl; auto.
Qed.

End Properties.

(* ===================================================================== *)
(** ** The code on concrete inputs *)
(* ===================================================================== *)

Section Runs.
Local Open Scope string_scope.

Local Abbreviation run_substitutions order :=
  (substitutions Concrete.lower order Concrete.full_process Concrete.ratio).
Local Abbreviation run_wrangled_terms order :=
  (wrangled_terms Concrete.lower order Concrete.full_process Concrete.ratio).
Local Abbreviation run_bests :=
  (extractBests Concrete.full_process Concrete.ratio).

(** Scenario 1 of the specification. *)
Example scenario_capitalization :
  run_substitutions Concrete.first_seen
    (CapsWrangler ["Apple"; "apple"; "apple"; "APPLE"])
  = [("Apple", "apple"); ("APPLE", "apple")].
Proof. reflexivity. Qed.

(** Scenario 5 of the specification. *)
Example scenario_unknown_term :
  wrangle Concrete.lower Concrete.first_seen Concrete.full_process
    Concrete.ratio (Wrangler ["cat"; "car"]) "cow"
  = Raise (AssertionError
             "Cannot wrangle a term outside the original input terms: cow").
Proof. reflexivity. Qed.

(** C1, as stated, fails.  Two terms that are each other's best match, with
    equal frequencies and a score of 96 (the value [WRatio] gives them as
    well: one character in 27 differs), are mapped to each other by the
    fuzzy pass, and the composite map takes both entries over: each of its
    values is one of its keys.  The iteration order plays no part. *)
Lemma Wrangler_value_is_key :
  let a := "abcdefghijklmnopqrstuvwxyz1" in
  let b := "abcdefghijklmnopqrstuvwxyz2" in
  let m := run_substitutions Concrete.first_seen (Wrangler [a; b]) in
  let m' := run_substitutions Concrete.last_seen_first (Wrangler [a; b]) in
  (Py.get m a = Some b /\ Py.get m b = Some a /\ ~ no_value_is_key_of m m) /\
  (Py.get m' a = Some b /\ Py.get m' b = Some a /\
   ~ no_value_is_key_of m' m').
Proof.
  cbv zeta.
  split; (split; [vm_compute; reflexivity|]; split; [vm_compute; reflexivity|]);
    intros H;
    pose proof (H "abcdefghijklmnopqrstuvwxyz1" "abcdefghijklmnopqrstuvwxyz2")
      as E;
    vm_compute in E; specialize (E eq_refl); discriminate E.
Qed.

(** C3 fails on the code.  The loop of [TextWrangler.substitutions] takes
    the second of the two best candidates for the best match distinct from
    the term, and never compares it with the term.  "Apple" and "apple"
    have the same processed form, so each scores 100 against the other as
    it does against itself; the ranking for "apple" keeps the iteration
    order, its top candidate is "Apple" and the candidate examined is
    "apple" itself.  With the opposite iteration order the same happens to
    "Apple". *)
Lemma TextWrangler_top_is_not_self :
  run_bests "apple" (_unique_terms_ Concrete.first_seen ["Apple"; "apple"]) 2
  = [("Apple", 100); ("apple", 100)] /\
  run_bests "Apple"
    (_unique_terms_ Concrete.last_seen_first ["Apple"; "apple"]) 2
  = [("apple", 100); ("Apple", 100)].
Proof. split; reflexivity. Qed.

(** C5 fails for the fuzzy and the composite normalizer.  Whatever the
    iteration order, [TextWrangler] maps one of "Apple" and "apple" to
    itself, and [Wrangler], whose capitalization pass leaves "apple!" and
    "apple" alone, maps one of these to itself. *)
Theorem self_mapping_recorded :
  Py.get (run_substitutions Concrete.first_seen
            (TextWrangler ["Apple"; "apple"] default_threshold)) "apple"
  = Some "apple" /\
  Py.get (run_substitutions Concrete.last_seen_first
            (TextWrangler ["Apple"; "apple"] default_threshold)) "Apple"
  = Some "Apple" /\
  Py.get (run_substitutions Concrete.first_seen
            (Wrangler ["apple!"; "apple"])) "apple"
  = Some "apple" /\
  Py.get (run_substitutions Concrete.last_seen_first
            (Wrangler ["apple!"; "apple"])) "apple!"
  = Some "apple!".
Proof. repeat split; reflexivity. Qed.

(** The same, for every iteration order and every processor and scorer
    under which the two terms have one processed form and a self-score
    above the threshold. *)
Lemma TextWrangler_self_mapping_any_order
  (set_order : list term -> list term)
  (default_processor : term -> term) (default_scorer : term -> term -> Z) :
  admissible_order set_order ->
  default_processor "Apple" = default_processor "apple" ->
  default_threshold
  < default_scorer (default_processor "apple") (default_processor "apple") ->
  exists t,
    Py.get (TextWrangler_substitutions set_order default_processor
              default_scorer ["Apple"; "apple"] default_threshold) t
    = Some t.
Proof.
  intros Hord Hp Hs. destruct (Hord ["Apple"; "apple"]) as [Hnd Hin].
  unfold default_threshold in Hs.
  assert (Hlen : (2 <= List.length (set_order ["Apple"; "apple"]))%nat).
  { apply (NoDup_incl_length (l := ["Apple"; "apple"])).
    - repeat constructor; simpl; intuition discriminate.
    - intros x Hx. now apply Hin. }
  destruct (set_order ["Apple"; "apple"]) as [|x [|y rest]] eqn:E;
    simpl in Hlen; try lia.
  exists y.
  apply (TextWrangler_self_mapping_of_ties set_order default_processor
           default_scorer ["Apple"; "apple"] default_threshold
           (default_scorer (default_processor "apple")
              (default_processor "apple")) x y rest); auto;
    unfold default_threshold; try lia.
  intros q c [<-|[<-|[]]] [<-|[<-|[]]]; now rewrite ?Hp.
Qed.

(** *** Instances of the theorems above *)

Lemma CapsWrangler_substitutions_spec_witness :
  Py.get (CapsWrangler_substitutions Concrete.lower Concrete.first_seen
            ["Apple"; "apple"; "apple"; "APPLE"]) "Apple" = Some "apple" <->
  preferred_member Concrete.lower ["Apple"; "apple"; "apple"; "APPLE"]
    "Apple" "apple" /\ "apple" <> "Apple".
Proof.
  exact (proj1
           (CapsWrangler_substitutions_spec Concrete.lower Concrete.first_seen
              ["Apple"; "apple"; "apple"; "APPLE"] "Apple"
              first_seen_admissible (or_introl eq_refl))
           "apple").
Defined.

Lemma CapsWrangler_idempotent_witness :
  run_substitutions Concrete.first_seen
    (CapsWrangler
       (run_wrangled_terms Concrete.first_seen
          (CapsWrangler ["Apple"; "apple"; "apple"; "APPLE"])))
  = [].
Proof.
  exact (CapsWrangler_idempotent Concrete.lower Concrete.first_seen
           Concrete.full_process Concrete.ratio
           ["Apple"; "apple"; "apple"; "APPLE"] first_seen_admissible).
Defined.

Lemma CapsWrangler_frequency_dominance_witness :
  Py.get (run_substitutions Concrete.first_seen
            (CapsWrangler ["Apple"; "apple"; "apple"; "APPLE"])) "APPLE"
  = Some "apple" /\
  frequency ["Apple"; "apple"; "apple"; "APPLE"] "APPLE"
  <= frequency ["Apple"; "apple"; "apple"; "APPLE"] "apple".
Proof.
  split; [reflexivity|].
  apply (CapsWrangler_frequency_dominance Concrete.lower Concrete.first_seen
           Concrete.full_process Concrete.ratio).
  reflexivity.
Defined.

Lemma substitutions_domain_closed_witness :
  (forall k,
     In k (Py.keys (run_substitutions Concrete.first_seen
                      (Wrangler ["Color"; "color"; "Colour"]))) ->
     In k (_unique_terms_ Concrete.first_seen ["Color"; "color"; "Colour"])) /\
  (forall v,
     In v (Py.values (run_substitutions Concrete.first_seen
                        (Wrangler ["Color"; "color"; "Colour"]))) ->
     In v (_unique_terms_ Concrete.first_seen ["Color"; "color"; "Colour"])).
Proof.
  exact (substitutions_domain_closed Concrete.lower Concrete.first_seen
           Concrete.full_process Concrete.ratio
           (Wrangler ["Color"; "color"; "Colour"]) first_seen_admissible).
Defined.

Lemma Wrangler_single_lookup_witness :
  substitute
    (run_substitutions Concrete.first_seen
       (Wrangler ["Color"; "color"; "Colour"])) "color"
  = substitute
      (run_substitutions Concrete.first_seen
         (TextWrangler
            (run_wrangled_terms Concrete.first_seen
               (CapsWrangler ["Color"; "color"; "Colour"]))
            default_threshold))
      (substitute
         (run_substitutions Concrete.first_seen
            (CapsWrangler ["Color"; "color"; "Colour"])) "color").
Proof.
  exact (proj1
           (Wrangler_single_lookup Concrete.lower Concrete.first_seen
              Concrete.full_process Concrete.ratio
              ["Color"; "color"; "Colour"] first_seen_admissible)
           "color").
Defined.

Lemma TextWrangler_examines_best_distinct_witness :
  let terms :=
    ["abcdefghijklmnopqrstuvwxyz1"; "abcdefghijklmnopqrstuvwxyz2";
     "abcdefghijklmnopqrstuvwxyz2"; "zebra"] in
  let text :=
    TextWrangler_substitutions Concrete.first_seen Concrete.full_process
      Concrete.ratio terms default_threshold in
  Py.get text "abcdefghijklmnopqrstuvwxyz1"
  = Some "abcdefghijklmnopqrstuvwxyz2" /\
  "abcdefghijklmnopqrstuvwxyz2" <> "abcdefghijklmnopqrstuvwxyz1" /\
  In "abcdefghijklmnopqrstuvwxyz2" terms.
Proof.
  cbv zeta. split; [reflexivity|].
  pose proof
    (proj2
       (TextWrangler_examines_best_distinct Concrete.first_seen
          Concrete.full_process Concrete.ratio
          ["abcdefghijklmnopqrstuvwxyz1"; "abcdefghijklmnopqrstuvwxyz2";
           "abcdefghijklmnopqrstuvwxyz2"; "zebra"]
          default_threshold "abcdefghijklmnopqrstuvwxyz1"
          first_seen_admissible)) as H.
  destruct H as [_ H].
  - simpl. auto.
  - vm_compute. discriminate.
  - intros v [<-|[<-|[<-|[<-|[]]]]] Hne; try congruence; reflexivity.
  - destruct (H "abcdefghijklmnopqrstuvwxyz2" eq_refl) as (H1 & H2 & _).
    split; assumption.
Defined.

End Runs.

(* ===================================================================== *)
(** ** Further properties of the code *)
(* ===================================================================== *)

(** *** The frequency index *)

Lemma sum_values_set (d : Py.dict Z) k v :
  fold_right Z.add 0 (Py.values (Py.set d k v)) =
  fold_right Z.add 0 (Py.values d) + v - Py.count_of d k.
Proof.
  unfold Py.count_of. induction d as [|[k' v'] d IH]; simpl; [lia|].
  destruct (String.eqb k' k); simpl; [lia|]. rewrite IH. lia.
Qed.

(** [_counter_] holds one entry per distinct term of the input; the entry
    of a term is the number of its occurrences, which is at least 1, a term
    that does not occur counts 0, and the counts add up to the length of
    the input. *)
Theorem counter_invariant (terms : list term) :
  NoDup (Py.keys (_counter_ terms)) /\
  (forall t, In t (Py.keys (_counter_ terms)) <-> In t terms) /\
  (forall t, Py.count_of (_counter_ terms) t = frequency terms t) /\
  (forall t c, In (t, c) (Py.items (_counter_ terms)) -> 1 <= c) /\
  (forall t, ~ In t terms -> Py.count_of (_counter_ terms) t = 0) /\
  fold_right Z.add 0 (Py.values (_counter_ terms))
  = Z.of_nat (List.length terms).
Proof.
  unfold _counter_, Py.items. repeat split.
  - apply NoDup_keys_Counter.
  - apply keys_Counter_In.
  - apply keys_Counter_In.
  - apply count_of_Counter.
  - intros t c H. apply In_Counter in H as [H ->].
    apply frequency_pos in H. lia.
  - intros t H. rewrite count_of_Counter. now apply frequency_notin.
  - induction terms as [|x terms IH] using rev_ind; [reflexivity|].
    rewrite Counter_snoc, sum_values_set, IH, length_app. simpl. lia.
Qed.

(** *** Small lemmas on lists and dictionaries *)

Lemma dict_empty {V : Type} (d : Py.dict V) :
  (forall k, Py.get d k = None) -> d = [].
Proof.
  destruct d as [|[k v] d]; auto. intros H. specialize (H k).
  simpl in H. rewrite String.eqb_refl in H. discriminate.
Qed.

Lemma NoDup_constant_length (l : list term) (t0 : term) :
  NoDup l -> (forall x, In x l -> x = t0) -> (List.length l <= 1)%nat.
Proof.
  intros Hnd Hall. destruct l as [|x [|y l]]; simpl; auto.
  exfalso. inversion Hnd as [|? ? Hni _]. apply Hni.
  rewrite (Hall x), (Hall y); simpl; auto.
Qed.

Lemma two_members_length {A : Type} (l : list A) (x y : A) :
  In x l -> In y l -> x <> y -> (2 <= List.length l)%nat.
Proof.
  destruct l as [|a [|b l]]; simpl; try tauto; [|lia].
  intros [<-|[]] [<-|[]] H. congruence.
Qed.

Lemma frequency_map_ge (f : term -> term) (l : list term) (x : term) :
  frequency l x <= frequency (map f l) (f x).
Proof.
  unfold frequency. apply inj_le.
  induction l as [|y l IH]; simpl; auto.
  destruct (string_dec y x) as [->|Hne].
  - destruct (string_dec (f x) (f x)); [lia|congruence].
  - destruct (string_dec (f y) (f x)); lia.
Qed.

Lemma set_order_nil (set_order : list term -> list term) :
  admissible_order set_order -> set_order [] = [].
Proof.
  intros H. destruct (H []) as [_ Hin].
  destruct (set_order []) as [|x l]; auto.
  exfalso. apply (Hin x). now left.
Qed.

Lemma substitute_nil t : substitute [] t = t.
Proof. reflexivity. Qed.

Lemma wrangled_with_nil terms : wrangled_with [] terms = terms.
Proof.
  rewrite wrangled_with_map. induction terms as [|t terms IH]; simpl; auto.
  now rewrite IH.
Qed.

(** *** The capitalization pass *)

Section CapsFurther.
Variable lower : term -> term.
Variable set_order : list term -> list term.

Local Abbreviation caps := (CapsWrangler_substitutions lower set_order).
Local Abbreviation preferred := (_get_preferred_capitalization_ lower).

Lemma substitute_caps_preferred terms t :
  admissible_order set_order -> In t terms ->
  preferred terms t = Some (substitute (caps terms) t).
Proof.
  intros Hord Ht. unfold substitute.
  destruct (Py.get (caps terms) t) as [u|] eqn:E.
  - now apply caps_get in E.
  - destruct (preferred_some lower terms t Ht) as [p Hp]. rewrite Hp.
    destruct (string_dec p t) as [->|Hne]; auto.
    assert (Py.get (caps terms) t = Some p); [|congruence].
    apply caps_get. split; auto. now apply (Hord terms).
Qed.

(** All members of a case-insensitive group are wrangled to one and the
    same term, which is a term of the input and a member of the group. *)
Theorem CapsWrangler_collapses_groups (terms : list term) (t t' : term) :
  admissible_order set_order ->
  In t terms -> In t' terms -> lower t = lower t' ->
  substitute (caps terms) t = substitute (caps terms) t' /\
  lower (substitute (caps terms) t) = lower t /\
  In (substitute (caps terms) t) terms.
Proof.
  intros Hord Ht Ht' Hl.
  pose proof (substitute_caps_preferred terms t Hord Ht) as Hp.
  pose proof (substitute_caps_preferred terms t' Hord Ht') as Hp'.
  rewrite (preferred_same_group lower terms t t' Hl) in Hp.
  assert (Heq : substitute (caps terms) t = substitute (caps terms) t')
    by congruence.
  split; [exact Heq|]. rewrite Heq.
  apply preferred_is_member in Hp' as (Hin & Hl' & _).
  split; [congruence|assumption].
Qed.

(** The capitalization map has no chains: a recorded value is never a key,
    so substituting twice is substituting once. *)
Theorem CapsWrangler_no_chains (terms : list term) :
  no_value_is_key_of (caps terms) (caps terms) /\
  forall t,
    substitute (caps terms) (substitute (caps terms) t)
    = substitute (caps terms) t.
Proof.
  assert (H : no_value_is_key_of (caps terms) (caps terms)).
  { intros t u E. apply caps_get in E as (_ & Hp & _).
    apply preferred_idem in Hp.
    destruct (Py.get (caps terms) u) as [x|] eqn:Ex; auto.
    apply caps_get in Ex as (_ & Hp' & Hne). congruence. }
  split; [exact H|].
  intros t. unfold substitute.
  destruct (Py.get (caps terms) t) as [u|] eqn:E.
  - now rewrite (H t u E).
  - now rewrite E.
Qed.

(** A term that is strictly more frequent than every other member of its
    case-insensitive group is the substitution of each of them. *)
Theorem CapsWrangler_strict_maximum_wins (terms : list term) (t v : term) :
  admissible_order set_order ->
  In t terms -> In v terms -> lower v = lower t -> v <> t ->
  (forall x, In x terms -> lower x = lower t -> x <> t ->
             frequency terms x < frequency terms t) ->
  Py.get (caps terms) v = Some t.
Proof.
  intros Hord Ht Hv Hl Hne Hmax.
  apply caps_get. split; [now apply (Hord terms)|]. split; [|congruence].
  apply (preferred_iff lower terms v t Hv).
  repeat split; auto.
  - intros x Hx Hlx. destruct (string_dec x t) as [->|Hxt]; [lia|].
    apply Z.lt_le_incl, Hmax; auto. congruence.
  - intros x Hx Hlx Hf. destruct (string_dec x t) as [->|Hxt]; [lia|].
    assert (frequency terms x < frequency terms t); [|lia].
    apply Hmax; auto. congruence.
Qed.

(** When no two distinct terms of the input are equal ignoring case, the
    capitalization pass records nothing and leaves the sequence as it
    is. *)
Theorem CapsWrangler_nothing_to_fold (terms : list term) :
  admissible_order set_order ->
  (forall x y, In x terms -> In y terms -> lower x = lower y -> x = y) ->
  caps terms = [] /\ wrangled_with (caps terms) terms = terms.
Proof.
  intros Hord Hinj.
  assert (E : caps terms = []).
  { apply dict_empty. intros t.
    destruct (Py.get (caps terms) t) as [u|] eqn:E; auto. exfalso.
    apply caps_get in E as (Ht & Hp & Hne).
    apply preferred_is_member in Hp as (Hu & Hl & _).
    apply Hne, Hinj; auto. now apply (Hord terms). }
  split; [exact E|]. rewrite E. apply wrangled_with_nil.
Qed.

End CapsFurther.

(** The capitalization map and the sequence it produces do not depend on
    the order in which the set of distinct terms is iterated: ties are
    broken by the counter, whose order is that of the input. *)
Theorem CapsWrangler_order_independent (lower : term -> term)
  (order1 order2 : list term -> list term) (terms : list term) :
  admissible_order order1 -> admissible_order order2 ->
  (forall t,
     Py.get (CapsWrangler_substitutions lower order1 terms) t
     = Py.get (CapsWrangler_substitutions lower order2 terms) t) /\
  wrangled_with (CapsWrangler_substitutions lower order1 terms) terms
  = wrangled_with (CapsWrangler_substitutions lower order2 terms) terms.
Proof.
  intros H1 H2.
  assert (Hget : forall t,
            Py.get (CapsWrangler_substitutions lower order1 terms) t
            = Py.get (CapsWrangler_substitutions lower order2 terms) t).
  { assert (Hle : forall o o', admissible_order o -> admissible_order o' ->
              forall t u,
                Py.get (CapsWrangler_substitutions lower o terms) t = Some u ->
                Py.get (CapsWrangler_substitutions lower o' terms) t = Some u).
    { intros o o' Ho Ho' t u E. apply caps_get in E as (Ht & Hp & Hne).
      apply caps_get. repeat split; auto.
      apply (Ho' terms). now apply (Ho terms). }
    intros t.
    destruct (Py.get (CapsWrangler_substitutions lower order1 terms) t)
      as [u|] eqn:E1.
    - symmetry. now apply (Hle order1 order2).
    - destruct (Py.get (CapsWrangler_substitutions lower order2 terms) t)
        as [u|] eqn:E2; auto.
      apply (Hle order2 order1) in E2; auto. congruence. }
  split; [exact Hget|].
  rewrite !wrangled_with_map. apply map_ext. intros t.
  unfold substitute. now rewrite Hget.
Qed.

(** *** The fuzzy pass *)

Section TextFurther.
Variable set_order : list term -> list term.
Variable default_processor : term -> term.
Variable default_scorer : term -> term -> Z.

Local Abbreviation score q c :=
  (default_scorer (default_processor q) (default_processor c)).
Local Abbreviation text :=
  (TextWrangler_substitutions set_order default_processor default_scorer).

(** Raising the threshold never adds a substitution: what is recorded
    under a threshold is recorded under every lower one. *)
Theorem TextWrangler_threshold_antitone (terms : list term)
  (threshold threshold' : Z) (t u : term) :
  threshold <= threshold' ->
  Py.get (text terms threshold') t = Some u ->
  Py.get (text terms threshold) t = Some u.
Proof.
  intros Hle E. apply text_get in E as [Ht E]. apply text_get. split; auto.
  apply text_choice_iff in E as (top & s & Hb & Hs & Hf).
  apply text_choice_iff. exists top, s. repeat split; auto. lia.
Qed.

(** When no term of the input scores above the threshold against another
    or against itself, nothing is recorded. *)
Theorem TextWrangler_below_threshold (terms : list term) (threshold : Z) :
  admissible_order set_order ->
  (forall q c, In q terms -> In c terms -> score q c <= threshold) ->
  text terms threshold = [].
Proof.
  intros Hord Hlow. apply dict_empty. intros t.
  destruct (Py.get (text terms threshold) t) as [u|] eqn:E; auto. exfalso.
  apply text_get in E as [Ht E].
  apply text_choice_iff in E as (top & s & Hb & Hs & _).
  assert (Hu : In (u, s)
                 (extractBests default_processor default_scorer t
                    (set_order terms) 2)) by (rewrite Hb; simpl; auto).
  apply In_bests in Hu as (Hu & -> & _).
  apply (Hord terms) in Ht, Hu. specialize (Hlow t u Ht Hu). lia.
Qed.

(** An input with a single distinct term gets no substitution. *)
Lemma text_single_distinct (terms : list term) (threshold : Z) (t0 : term) :
  admissible_order set_order ->
  (forall x, In x terms -> x = t0) ->
  text terms threshold = [].
Proof.
  intros Hord Hall. apply dict_empty. intros t.
  destruct (Py.get (text terms threshold) t) as [u|] eqn:E; auto. exfalso.
  apply text_get in E as [_ E].
  apply text_choice_iff in E as (top & s & Hb & _).
  pose proof (bests_length default_processor default_scorer t
                (set_order terms) 2) as Hlen.
  rewrite Hb in Hlen. simpl in Hlen.
  destruct (Hord terms) as [Hnd Hin].
  assert ((List.length (set_order terms) <= 1)%nat); [|lia].
  apply (NoDup_constant_length _ t0); auto.
  intros x Hx. apply Hall. now apply Hin.
Qed.

Lemma text_two_terms (terms : list term) (threshold : Z)
  (a b : term) :
  admissible_order set_order ->
  In a terms -> In b terms -> a <> b ->
  (forall x, In x terms -> x = a \/ x = b) ->
  0 <= score a b -> score a b < score a a ->
  (Py.get (text terms threshold) a = Some b <->
   threshold < score a b /\ frequency terms a <= frequency terms b) /\
  (forall u, Py.get (text terms threshold) a = Some u -> u = b).
Proof.
  intros Hord Ha Hb Hne Hall Hab0 Hstrict.
  destruct (Hord terms) as [Hnd Hin].
  assert (Hbest : forall top u s,
            extractBests default_processor default_scorer a
              (set_order terms) 2 = [top; (u, s)] ->
            u = b /\ s = score a b).
  { intros top u s E.
    destruct (bests_strict default_processor default_scorer
                a (set_order terms) top u s) as (_ & H2 & H3 & H4 & _); auto.
    - now apply Hin.
    - lia.
    - intros v Hv Hva. apply Hin in Hv.
      destruct (Hall v Hv) as [->| ->]; [congruence|assumption].
    - apply Hin in H3. destruct (Hall u H3) as [->| ->]; [congruence|auto]. }
  assert (Htwo : exists top u s,
            extractBests default_processor default_scorer a
              (set_order terms) 2 = [top; (u, s)]).
  { unfold extractBests, Py.nlargest.
    assert (Hlen : (2 <= List.length
                          (Py.sorted_desc
                             (extractWithoutOrder default_processor
                                default_scorer a (set_order terms))))%nat).
    { rewrite <- (Permutation_length (sorted_desc_perm _)).
      apply (two_members_length _ (a, score a a) (b, score a b)).
      - apply In_candidates. repeat split; [now apply Hin|lia].
      - apply In_candidates. repeat split; [now apply Hin|lia].
      - congruence. }
    destruct (Py.sorted_desc _) as [|top [|[u s] rest]]; simpl in Hlen;
      try lia.
    exists top, u, s. reflexivity. }
  split.
  - rewrite text_get, text_choice_iff. split.
    + intros (_ & top & s & E & Hs & Hf).
      destruct (Hbest top b s E) as [_ ->]. auto.
    + intros [Hs Hf]. split; [now apply Hin|].
      destruct Htwo as (top & u & s & E).
      destruct (Hbest top u s E) as [-> ->]. eauto.
  - intros u E. apply text_get in E as [_ E].
    apply text_choice_iff in E as (top & s & E & _).
    now destruct (Hbest top u s E).
Qed.

(** With exactly two distinct terms [a] and [b], [a] scoring strictly
    higher against itself than against [b], the map sends [a] to [b]
    exactly when the score of [b] exceeds the threshold and [b] is at least
    as frequent as [a]; it sends [a] nowhere else. *)
Theorem TextWrangler_two_terms (terms : list term) (threshold : Z)
  (a b : term) :
  admissible_order set_order ->
  In a terms -> In b terms -> a <> b ->
  (forall x, In x terms -> x = a \/ x = b) ->
  0 <= score a b -> score a b < score a a ->
  (Py.get (text terms threshold) a = Some b <->
   threshold < score a b /\ frequency terms a <= frequency terms b) /\
  (forall u, Py.get (text terms threshold) a = Some u -> u = b).
Proof. apply text_two_terms. Qed.

(** Two equally frequent terms that are each other's only candidate and
    score above the threshold are not unified but exchanged: each is
    recorded as the substitution of the other, and the wrangled sequence
    is the input with the two swapped.  The scores are not negative, so
    that they pass the cutoff of [extractBests]; the threshold is any
    integer. *)
Theorem TextWrangler_swaps_equals (terms : list term) (threshold : Z)
  (a b : term) :
  admissible_order set_order ->
  In a terms -> In b terms -> a <> b ->
  (forall x, In x terms -> x = a \/ x = b) ->
  score a b < score a a -> score b a < score b b ->
  0 <= score a b -> 0 <= score b a ->
  threshold < score a b -> threshold < score b a ->
  frequency terms a = frequency terms b ->
  Py.get (text terms threshold) a = Some b /\
  Py.get (text terms threshold) b = Some a /\
  wrangled_with (text terms threshold) terms
  = map (fun x => if String.eqb x a then b else a) terms.
Proof.
  intros Hord Ha Hb Hne Hall Hsa Hsb Hab0 Hba0 Hab Hba Hf.
  assert (Ea : Py.get (text terms threshold) a = Some b).
  { apply (text_two_terms terms threshold a b); auto; lia. }
  assert (Eb : Py.get (text terms threshold) b = Some a).
  { apply (text_two_terms terms threshold b a); auto; try lia.
    intros x Hx. destruct (Hall x Hx); auto. }
  repeat split; auto.
  rewrite wrangled_with_map. apply map_ext_in. intros x Hx.
  unfold substitute. destruct (Hall x Hx) as [->| ->].
  - now rewrite Ea, String.eqb_refl.
  - rewrite Eb. destruct (String.eqb_spec b a); congruence.
Qed.

End TextFurther.

(** *** The composite, and all three normalizers *)

Section AllFurther.
Variable lower : term -> term.
Variable set_order : list term -> list term.
Variable default_processor : term -> term.
Variable default_scorer : term -> term -> Z.

Local Abbreviation score q c :=
  (default_scorer (default_processor q) (default_processor c)).
Local Abbreviation caps := (CapsWrangler_substitutions lower set_order).
Local Abbreviation text :=
  (TextWrangler_substitutions set_order default_processor default_scorer).
Local Abbreviation composite :=
  (Wrangler_substitutions lower set_order default_processor default_scorer).
Local Abbreviation substitutions_of :=
  (substitutions lower set_order default_processor default_scorer).
Local Abbreviation wrangled_terms_of :=
  (wrangled_terms lower set_order default_processor default_scorer).
Local Abbreviation wrangle_of :=
  (wrangle lower set_order default_processor default_scorer).

Lemma caps_empty_of_injective (terms : list term) :
  admissible_order set_order ->
  (forall x y, In x terms -> In y terms -> lower x = lower y -> x = y) ->
  caps terms = [].
Proof.
  intros Hord Hinj. apply dict_empty. intros t.
  destruct (Py.get (caps terms) t) as [u|] eqn:E; auto. exfalso.
  apply caps_get in E as (Ht & Hp & Hne).
  apply preferred_is_member in Hp as (Hu & Hl & _).
  apply Hne, Hinj; auto. now apply (Hord terms).
Qed.

Lemma Wrangler_substitute (terms : list term) (t : term) :
  admissible_order set_order ->
  substitute (composite terms) t
  = substitute (text (wrangled_with (caps terms) terms) default_threshold)
      (substitute (caps terms) t).
Proof.
  intros Hord.
  set (text_map := text (wrangled_with (caps terms) terms) default_threshold).
  unfold substitute at 1. rewrite Wrangler_get. fold text_map.
  destruct (Py.get text_map t) as [v|] eqn:Et.
  - apply (text_keys_values set_order default_processor default_scorer Hord)
      in Et as Hin. destruct Hin as [Hin _].
    apply (caps_wrangled_fixed lower set_order Hord) in Hin as (_ & _ & Hc).
    unfold substitute. now rewrite Hc, Et.
  - unfold substitute at 3.
    destruct (Py.get (caps terms) t) as [c|] eqn:Ec; auto.
    unfold substitute. now rewrite Et.
Qed.

(** The sequence the composite produces is the sequence the fuzzy pass
    produces from the sequence the capitalization pass produces. *)
Theorem Wrangler_wrangled_terms_two_passes (terms : list term) :
  admissible_order set_order ->
  wrangled_terms_of (Wrangler terms)
  = wrangled_terms_of
      (TextWrangler (wrangled_terms_of (CapsWrangler terms))
         default_threshold).
Proof.
  intros Hord. unfold wrangled_terms. simpl.
  rewrite (wrangled_with_map (composite terms)).
  rewrite (wrangled_with_map (text _ _)).
  rewrite (wrangled_with_map (caps terms)) at 2. rewrite map_map.
  apply map_ext. intros t. rewrite Wrangler_substitute by assumption.
  now rewrite (wrangled_with_map (caps terms)).
Qed.

(** Frequency dominance of the composite holds in the counts of the
    capitalization-normalized sequence: a term recorded as the
    substitution of [t] occurs there at least as often as [t] occurs in the
    input. *)
Theorem Wrangler_frequency_dominance (terms : list term) (t u : term) :
  admissible_order set_order ->
  Py.get (substitutions_of (Wrangler terms)) t = Some u ->
  frequency terms t
  <= frequency (wrangled_terms_of (CapsWrangler terms)) u.
Proof.
  intros Hord. simpl. unfold wrangled_terms. simpl.
  rewrite Wrangler_get.
  set (w := wrangled_with (caps terms) terms).
  set (text_map := text w default_threshold).
  assert (Hdom : forall a b, Py.get text_map a = Some b ->
                             frequency w a <= frequency w b).
  { intros a b E. apply text_get in E as [_ E].
    now apply text_choice_iff in E as (top & s & _ & _ & Hf). }
  assert (Hmap : frequency terms t <= frequency w (substitute (caps terms) t)).
  { subst w. rewrite wrangled_with_map. apply frequency_map_ge. }
  destruct (Py.get text_map t) as [v|] eqn:Et.
  - intros E. injection E as <-.
    apply (text_keys_values set_order default_processor default_scorer Hord)
      in Et as Hin. destruct Hin as [Hin _].
    apply (caps_wrangled_fixed lower set_order Hord) in Hin as (_ & _ & Hc).
    unfold substitute in Hmap. rewrite Hc in Hmap.
    specialize (Hdom t v Et). lia.
  - destruct (Py.get (caps terms) t) as [c|] eqn:Ec; [|discriminate].
    intros E. injection E as <-.
    unfold substitute in Hmap. rewrite Ec in Hmap. unfold substitute.
    destruct (Py.get text_map c) as [v|] eqn:Ev; auto.
    specialize (Hdom c v Ev). lia.
Qed.

(** When no two distinct terms of the input are equal ignoring case, the
    composite is the fuzzy pass on the input: the two maps agree on every
    lookup. *)
Theorem Wrangler_without_case_variants (terms : list term) :
  admissible_order set_order ->
  (forall x y, In x terms -> In y terms -> lower x = lower y -> x = y) ->
  forall t,
    Py.get (substitutions_of (Wrangler terms)) t
    = Py.get (substitutions_of (TextWrangler terms default_threshold)) t.
Proof.
  intros Hord Hinj t. simpl. rewrite Wrangler_get.
  rewrite (caps_empty_of_injective terms Hord Hinj), wrangled_with_nil.
  simpl. now destruct (Py.get _ t).
Qed.

(** When no term of the capitalization-normalized sequence has a
    substitution in the fuzzy pass, the composite is the capitalization
    pass: the two maps agree on every lookup. *)
Theorem Wrangler_without_near_duplicates (terms : list term) :
  substitutions_of
    (TextWrangler (wrangled_terms_of (CapsWrangler terms)) default_threshold)
  = [] ->
  forall t,
    Py.get (substitutions_of (Wrangler terms)) t
    = Py.get (substitutions_of (CapsWrangler terms)) t.
Proof.
  simpl. unfold wrangled_terms. simpl. intros E t.
  rewrite Wrangler_get, E. simpl.
  destruct (Py.get (caps terms) t); reflexivity.
Qed.

(** For an empty input every normalizer has an empty map and an empty
    wrangled sequence, and [wrangle] raises for every term. *)
Theorem empty_input (w : wrangler) :
  admissible_order set_order ->
  _terms_ w = [] ->
  substitutions_of w = [] /\ wrangled_terms_of w = [] /\
  forall t, exists e, wrangle_of w t = Raise e.
Proof.
  intros Hord E. pose proof (set_order_nil set_order Hord) as Hnil.
  assert (Hs : substitutions_of w = []).
  { destruct w as [terms|terms threshold|terms]; simpl in *; subst terms.
    - unfold CapsWrangler_substitutions, _unique_terms_. now rewrite Hnil.
    - unfold TextWrangler_substitutions, _unique_terms_. now rewrite Hnil.
    - unfold Wrangler_substitutions, CapsWrangler_substitutions,
        TextWrangler_substitutions, _unique_terms_. rewrite Hnil. simpl.
      rewrite wrangled_with_nil, Hnil. reflexivity. }
  split; [exact Hs|]. split.
  - unfold wrangled_terms. now rewrite E.
  - intros t. unfold wrangle. rewrite E. simpl. eauto.
Qed.

(** An input whose terms are all the same has no substitution in any
    normalizer, and its wrangled sequence is the input. *)
Theorem single_distinct_term (w : wrangler) (t0 : term) :
  admissible_order set_order ->
  (forall x, In x (_terms_ w) -> x = t0) ->
  substitutions_of w = [] /\ wrangled_terms_of w = _terms_ w.
Proof.
  intros Hord Hall.
  assert (Hs : substitutions_of w = []).
  { destruct w as [terms|terms threshold|terms]; simpl in *.
    - apply caps_empty_of_injective; auto.
      intros x y Hx Hy _. rewrite (Hall x Hx), (Hall y Hy). reflexivity.
    - now apply (text_single_distinct set_order default_processor
                   default_scorer terms threshold t0).
    - apply dict_empty. intros t. rewrite Wrangler_get.
      rewrite (caps_empty_of_injective terms Hord).
      2:{ intros x y Hx Hy _. rewrite (Hall x Hx), (Hall y Hy). reflexivity. }
      rewrite wrangled_with_nil.
      rewrite (text_single_distinct set_order default_processor
                 default_scorer terms default_threshold t0 Hord Hall).
      reflexivity. }
  split; [exact Hs|]. unfold wrangled_terms. rewrite Hs.
  apply wrangled_with_nil.
Qed.

(** Every term of a wrangled sequence is a term of the input, for every
    normalizer. *)
Theorem wrangled_terms_in_input (w : wrangler) (x : term) :
  admissible_order set_order ->
  In x (wrangled_terms_of w) -> In x (_terms_ w).
Proof.
  intros Hord H. unfold wrangled_terms in H.
  apply In_wrangled_with in H as [t [Ht ->]]. unfold substitute.
  destruct (Py.get (substitutions_of w) t) as [u|] eqn:E; auto.
  now apply (substitutions_get_closed lower set_order default_processor
               default_scorer w t u Hord) in E.
Qed.

End AllFurther.

(** *** Instances of the further properties *)

Section FurtherRuns.
Local Open Scope string_scope.

Local Abbreviation lower_ := Concrete.lower.
Local Abbreviation order_ := Concrete.first_seen.
Local Abbreviation process_ := Concrete.full_process.
Local Abbreviation ratio_ := Concrete.ratio.
Local Abbreviation apples := ["Apple"; "apple"; "apple"; "APPLE"].
Local Abbreviation colors := ["Color"; "color"; "Colour"].
Local Abbreviation a1 := "abcdefghijklmnopqrstuvwxyz1".
Local Abbreviation a2 := "abcdefghijklmnopqrstuvwxyz2".

Lemma cat_car_distinct_ignoring_case :
  forall x y, In x ["cat"; "car"] -> In y ["cat"; "car"] ->
              lower_ x = lower_ y -> x = y.
Proof.
  intros x y [<-|[<-|[]]] [<-|[<-|[]]] H; try reflexivity;
    vm_compute in H; discriminate.
Qed.

Lemma CapsWrangler_collapses_groups_witness :
  substitute (CapsWrangler_substitutions lower_ order_ apples) "Apple"
  = substitute (CapsWrangler_substitutions lower_ order_ apples) "APPLE" /\
  lower_ (substitute (CapsWrangler_substitutions lower_ order_ apples) "Apple") = lower_ "Apple" /\
  In (substitute (CapsWrangler_substitutions lower_ order_ apples) "Apple") apples.
Proof.
  apply (CapsWrangler_collapses_groups lower_ order_ apples "Apple" "APPLE"
           first_seen_admissible); simpl; auto.
Defined.

Lemma CapsWrangler_strict_maximum_wins_witness :
  Py.get (CapsWrangler_substitutions lower_ order_ apples) "APPLE" = Some "apple".
Proof.
  apply (CapsWrangler_strict_maximum_wins lower_ order_ apples "apple" "APPLE"
           first_seen_admissible); simpl; auto.
  - discriminate.
  - intros x [<-|[<-|[<-|[<-|[]]]]] _ Hne; try congruence; reflexivity.
Defined.

Lemma CapsWrangler_nothing_to_fold_witness :
  CapsWrangler_substitutions lower_ order_ ["cat"; "car"] = [] /\
  wrangled_with (CapsWrangler_substitutions lower_ order_ ["cat"; "car"]) ["cat"; "car"]
  = ["cat"; "car"].
Proof.
  exact (CapsWrangler_nothing_to_fold lower_ order_ ["cat"; "car"]
           first_seen_admissible cat_car_distinct_ignoring_case).
Defined.

Lemma CapsWrangler_order_independent_witness :
  wrangled_with (CapsWrangler_substitutions lower_ order_ apples) apples
  = wrangled_with
      (CapsWrangler_substitutions lower_ Concrete.last_seen_first apples) apples.
Proof.
  exact (proj2 (CapsWrangler_order_independent lower_ order_ Concrete.last_seen_first
                  apples first_seen_admissible last_seen_first_admissible)).
Defined.

Lemma TextWrangler_threshold_antitone_witness :
  Py.get (TextWrangler_substitutions order_ process_ ratio_ [a1; a2] 90) a1 = Some a2.
Proof.
  apply (TextWrangler_threshold_antitone order_ process_ ratio_ [a1; a2] 90 94 a1 a2).
  - lia.
  - vm_compute. reflexivity.
Defined.

Lemma TextWrangler_below_threshold_witness :
  TextWrangler_substitutions order_ process_ ratio_ ["cat"; "car"] 100 = [].
Proof.
  apply (TextWrangler_below_threshold order_ process_ ratio_ ["cat"; "car"] 100
           first_seen_admissible).
  intros q c [<-|[<-|[]]] [<-|[<-|[]]]; apply Z.leb_le; reflexivity.
Defined.

Lemma TextWrangler_two_terms_witness :
  Py.get (TextWrangler_substitutions order_ process_ ratio_ [a1; a2; a2] 94) a1 = Some a2 <->
  94 < ratio_ (process_ a1) (process_ a2) /\ frequency [a1; a2; a2] a1 <= frequency [a1; a2; a2] a2.
Proof.
  apply (TextWrangler_two_terms order_ process_ ratio_ [a1; a2; a2] 94 a1 a2
           first_seen_admissible); simpl; auto.
  - discriminate.
  - intros x [<-|[<-|[<-|[]]]]; auto.
  - apply Z.leb_le. reflexivity.
  - reflexivity.
Defined.

Lemma TextWrangler_swaps_equals_witness :
  wrangled_with
    (TextWrangler_substitutions order_ process_ ratio_ [a1; a2; a1; a2] 94)
    [a1; a2; a1; a2]
  = [a2; a1; a2; a1] /\
  wrangled_with
    (TextWrangler_substitutions order_ process_ ratio_ ["cat"; "dog"] (-1))
    ["cat"; "dog"]
  = ["dog"; "cat"].
Proof.
  split.
  - refine (proj2 (proj2
              (TextWrangler_swaps_equals order_ process_ ratio_
                 [a1; a2; a1; a2] 94 a1 a2
                 first_seen_admissible _ _ _ _ _ _ _ _ _ _ _)));
      first [ reflexivity
            | apply Z.leb_le; reflexivity
            | discriminate
            | simpl; tauto
            | intros x [<-|[<-|[<-|[<-|[]]]]]; auto ].
  - refine (proj2 (proj2
              (TextWrangler_swaps_equals order_ process_ ratio_
                 ["cat"; "dog"] (-1) "cat" "dog"
                 first_seen_admissible _ _ _ _ _ _ _ _ _ _ _)));
      first [ reflexivity
            | apply Z.leb_le; reflexivity
            | discriminate
            | simpl; tauto
            | intros x [<-|[<-|[]]]; auto ].
Defined.

Lemma Wrangler_wrangled_terms_two_passes_witness :
  wrangled_terms lower_ order_ process_ ratio_ (Wrangler colors)
  = wrangled_terms lower_ order_ process_ ratio_
      (TextWrangler (wrangled_terms lower_ order_ process_ ratio_ (CapsWrangler colors))
         default_threshold).
Proof.
  exact (Wrangler_wrangled_terms_two_passes lower_ order_ process_ ratio_ colors
           first_seen_admissible).
Defined.

Lemma Wrangler_frequency_dominance_witness :
  frequency colors "color"
  <= frequency (wrangled_terms lower_ order_ process_ ratio_ (CapsWrangler colors)) "Color".
Proof.
  apply (Wrangler_frequency_dominance lower_ order_ process_ ratio_ colors "color" "Color"
           first_seen_admissible).
  vm_compute. reflexivity.
Defined.

Lemma Wrangler_without_case_variants_witness :
  Py.get (substitutions lower_ order_ process_ ratio_ (Wrangler ["cat"; "car"])) "cat"
  = Py.get (substitutions lower_ order_ process_ ratio_
              (TextWrangler ["cat"; "car"] default_threshold)) "cat".
Proof.
  exact (Wrangler_without_case_variants lower_ order_ process_ ratio_ ["cat"; "car"]
           first_seen_admissible cat_car_distinct_ignoring_case "cat").
Defined.

Lemma Wrangler_without_near_duplicates_witness :
  Py.get (substitutions lower_ order_ process_ ratio_ (Wrangler colors)) "color"
  = Py.get (substitutions lower_ order_ process_ ratio_ (CapsWrangler colors)) "color".
Proof.
  apply (Wrangler_without_near_duplicates lower_ order_ process_ ratio_ colors).
  vm_compute. reflexivity.
Defined.

Lemma empty_input_witness :
  substitutions lower_ order_ process_ ratio_ (Wrangler []) = [] /\
  wrangled_terms lower_ order_ process_ ratio_ (Wrangler []) = [] /\
  forall t, exists e, wrangle lower_ order_ process_ ratio_ (Wrangler []) t = Raise e.
Proof.
  exact (empty_input lower_ order_ process_ ratio_ (Wrangler []) first_seen_admissible eq_refl).
Defined.

Lemma single_distinct_term_witness :
  substitutions lower_ order_ process_ ratio_ (Wrangler ["tea"; "tea"]) = [] /\
  wrangled_terms lower_ order_ process_ ratio_ (Wrangler ["tea"; "tea"]) = ["tea"; "tea"].
Proof.
  apply (single_distinct_term lower_ order_ process_ ratio_ (Wrangler ["tea"; "tea"]) "tea"
           first_seen_admissible).
  intros x [<-|[<-|[]]]; reflexivity.
Defined.

Lemma wrangled_terms_in_input_witness : In "apple" apples.
Proof.
  apply (wrangled_terms_in_input lower_ order_ process_ ratio_ (CapsWrangler apples) "apple"
           first_seen_admissible).
  vm_compute. auto.
Defined.

End FurtherRuns.


(** *** [wrangle] through the two passes *)

Section WrangleTwoPasses.
Variable lower : term -> term.
Variable set_order : list term -> list term.
Variable default_processor : term -> term.
Variable default_scorer : term -> term -> Z.

Local Abbreviation wrangle_of :=
  (wrangle lower set_order default_processor default_scorer).
Local Abbreviation wrangled_terms_of :=
  (wrangled_terms lower set_order default_processor default_scorer).

Lemma wrangle_member (w : wrangler) (t : term) :
  In t (_terms_ w) ->
  wrangle_of w t
  = Return (substitute
              (substitutions lower set_order default_processor
                 default_scorer w) t).
Proof.
  intros H. apply contains_In in H. unfold wrangle. rewrite H.
  unfold substitute. now destruct (Py.get _ t).
Qed.

(** For a term of the input, [wrangle] of the capitalization pass returns
    a term that the fuzzy pass over the capitalization-normalized sequence
    accepts, and wrangling it there gives what [wrangle] of the composite
    returns for the original term. *)
Theorem Wrangler_wrangle_two_passes (terms : list term) (t : term) :
  admissible_order set_order ->
  In t terms ->
  exists c,
    wrangle_of (CapsWrangler terms) t = Return c /\
    wrangle_of
      (TextWrangler (wrangled_terms_of (CapsWrangler terms))
         default_threshold) c
    = wrangle_of (Wrangler terms) t /\
    exists u, wrangle_of (Wrangler terms) t = Return u.
Proof.
  intros Hord Ht.
  exists (substitute (CapsWrangler_substitutions lower set_order terms) t).
  rewrite (wrangle_member (CapsWrangler terms) t Ht).
  rewrite (wrangle_member (Wrangler terms) t Ht).
  rewrite wrangle_member.
  - simpl. unfold wrangled_terms. simpl.
    rewrite (Wrangler_substitute lower set_order default_processor
               default_scorer terms t Hord).
    repeat split. eauto.
  - simpl. unfold wrangled_terms. simpl. apply In_wrangled_with. eauto.
Qed.

End WrangleTwoPasses.

Lemma Wrangler_wrangle_two_passes_witness :
  exists c,
    wrangle Concrete.lower Concrete.first_seen Concrete.full_process
      Concrete.ratio (CapsWrangler ["Color"; "color"; "Colour"]%string)
      "color"%string = Return c /\
    wrangle Concrete.lower Concrete.first_seen Concrete.full_process
      Concrete.ratio
      (TextWrangler
         (wrangled_terms Concrete.lower Concrete.first_seen
            Concrete.full_process Concrete.ratio
            (CapsWrangler ["Color"; "color"; "Colour"]%string))
         default_threshold) c
    = wrangle Concrete.lower Concrete.first_seen Concrete.full_process
        Concrete.ratio (Wrangler ["Color"; "color"; "Colour"]%string)
        "color"%string /\
    exists u,
      wrangle Concrete.lower Concrete.first_seen Concrete.full_process
        Concrete.ratio (Wrangler ["Color"; "color"; "Colour"]%string)
        "color"%string = Return u.
Proof.
  apply (Wrangler_wrangle_two_passes Concrete.lower Concrete.first_seen
           Concrete.full_process Concrete.ratio
           ["Color"; "color"; "Colour"]%string "color"%string
           first_seen_admissible).
  simpl. auto.
Defined.
